(** * ENEM 2017 pipeline: hit counting, conditional medians and the presence filter

    A shallow embedding of

    - [notebooks/02_build_hits.py] ([compute_hits]): the DuckDB query that
      explodes the answer and key strings, counts the hits per subject, takes
      the median score per (exam year, hits) window and joins the result back
      to the processed table;
    - [notebooks/01_download_and_clean.py] ([_transform], [build]): the
      renaming/encoding step and the presence filter that produce that table.

    Conventions of the embedding.
    - A nullable column is an [option]; [None] is SQL [NULL] (a polars null).
    - Integer columns are [Z].  Scores are [Float64] in the program; here they
      are exact rationals ([Qc]), so that order and the midpoint of two scores
      are the mathematical ones (no rounding, no NaN).
    - A [VARCHAR] is a [string]; one [ascii] stands for one character.
    - A table is the [list] of its rows.  Where the engine leaves the order of
      rows open (GROUP BY, joins) the lists below fix one order; no statement
      depends on which.
    - The four subjects share every column family, so a family of four columns
      ([answers_science], ..., [answers_math]) is one [per_subject] field. *)

From Stdlib Require Import ZArith QArith Qcanon String Ascii.
From stdpp Require Import base option list numbers strings gmap sorting.

Local Open Scope Z_scope.

(** ** Subjects and column families *)

Inductive subject := science | humanities | language | math.

Global Instance subject_eq_dec : EqDecision subject.
Proof. solve_decision. Defined.

Record per_subject (A : Type) := PerSubject {
  of_science : A;
  of_humanities : A;
  of_language : A;
  of_math : A;
}.
Arguments PerSubject {A} _ _ _ _.
Arguments of_science {A} _.
Arguments of_humanities {A} _.
Arguments of_language {A} _.
Arguments of_math {A} _.

Global Instance per_subject_eq_dec `{EqDecision A} : EqDecision (per_subject A).
Proof. solve_decision. Defined.

(** [col p s] is the column of family [p] for subject [s]; a family is used
    as a function of the subject, so [answers r science] is the column
    [answers_science] of row [r]. *)
Definition col {A} (p : per_subject A) (s : subject) : A :=
  match s with
  | science => of_science p
  | humanities => of_humanities p
  | language => of_language p
  | math => of_math p
  end.
Coercion col : per_subject >-> Funclass.

(** The family whose column for [s] is [f s]. *)
Definition each {A} (f : subject → A) : per_subject A :=
  PerSubject (f science) (f humanities) (f language) (f math).

(** Number of questions of a subject: the count given to [REPEAT] in the
    query (45, 45, 50, 45). *)
Definition subject_length (s : subject) : nat :=
  match s with language => 50 | _ => 45 end.

(** ** The candidate table

    One row per candidate, with the columns of [COLUMN_MAP] under their new
    names.  [C] is the type of the three categorical columns: [string] as read
    from the CSV, [Z] once [_transform] has ranked them. *)

Record candidate (C : Type) := Candidate {
  registration_id : option Z;
  exam_year : option Z;
  sex : option C;
  race_color : option Z;
  hs_completion_status : option Z;
  school_type : option Z;
  teaching_mode : option Z;
  is_tester : option Z;
  school_admin_dependency : option Z;
  school_location : option Z;
  school_oper_status : option Z;
  code_exam : per_subject (option Z);
  presence : per_subject (option Z);
  answers : per_subject (option string);
  key : per_subject (option string);
  score : per_subject (option Qc);
  family_income_bracket : option C;
  school_funding_src : option C;
}.
Arguments Candidate {C}.
Arguments registration_id {C} _.
Arguments exam_year {C} _.
Arguments sex {C} _.
Arguments race_color {C} _.
Arguments hs_completion_status {C} _.
Arguments school_type {C} _.
Arguments teaching_mode {C} _.
Arguments is_tester {C} _.
Arguments school_admin_dependency {C} _.
Arguments school_location {C} _.
Arguments school_oper_status {C} _.
Arguments code_exam {C} _.
Arguments presence {C} _.
Arguments answers {C} _.
Arguments key {C} _.
Arguments score {C} _.
Arguments family_income_bracket {C} _.
Arguments school_funding_src {C} _.

(** Rows of the CSV file and of [enem_2017.parquet]. *)
Abbreviation csv_row := (candidate string).
Abbreviation parquet_row := (candidate Z).

(** ** SQL values and scalar functions *)

(** [COALESCE(x, d)]. *)
Definition COALESCE {A} (x : option A) (d : A) : A := default d x.

(** [REPEAT(s, n)]. *)
Fixpoint REPEAT (s : string) (n : nat) : string :=
  match n with
  | O => ""
  | S n' => s +:+ REPEAT s n'
  end.

(** The characters of a string, each as a string of its own. *)
Fixpoint chars (s : string) : list string :=
  match s with
  | EmptyString => []
  | String c s' => String c "" :: chars s'
  end.

(** [STRING_SPLIT(s, '')]: one element per character; the empty string
    splits into the single element [''] (the engine always emits the
    remainder after the last split point). *)
Definition STRING_SPLIT (s : string) : list string :=
  match s with
  | EmptyString => [""]
  | _ => chars s
  end.

(** [x = y] in SQL: [NULL] as soon as one side is. *)
Definition sql_eq {A} `{EqDecision A} (x y : option A) : option bool :=
  match x, y with
  | Some a, Some b => Some (bool_decide (a = b))
  | _, _ => None
  end.

(** [x >= y] on scores. *)
Definition sql_ge (x y : option Qc) : option bool :=
  match x, y with
  | Some a, Some b => Some (bool_decide (b ≤ a)%Qc)
  | _, _ => None
  end.

(** [x AND y] (three-valued). *)
Definition sql_and (x y : option bool) : option bool :=
  match x, y with
  | Some false, _ | _, Some false => Some false
  | Some true, Some true => Some true
  | _, _ => None
  end.

(** A condition holds (in [WHERE], [ON], [CASE WHEN], a polars [filter]) only
    when it is true: false and [NULL] both fail. *)
Definition holds (c : option bool) : bool :=
  match c with Some true => true | _ => false end.

(** [CASE WHEN c THEN 1 ELSE 0 END]. *)
Definition CASE_WHEN (c : option bool) : Z := if holds c then 1 else 0.

(** [SUM] of a non-empty group of integers. *)
Definition SUM (l : list Z) : Z := foldr Z.add 0 l.

(** [LIMIT n]: the first [n] rows of a relation that is produced in the
    file's order; no clause when [sample_size] is [None]. *)
Definition LIMIT {A} (sample_size : option nat) (rows : list A) : list A :=
  match sample_size with
  | Some n => take n rows
  | None => rows
  end.

(** ** The [answers] common table expression (query lines 55-77) *)

Module Answers.
Record row := Row {
  registration_id : option Z;
  exam_year : option Z;
  ans : per_subject (option string);
  key : per_subject (option string);
  score : per_subject (option Qc);
  code_exam : per_subject (option Z);
}.
End Answers.

(** The lists handed to [UNNEST]: the answers (missing: 45 or 50 times ['#'])
    and the keys (missing: 45 or 50 times ['.']), split into characters. *)
Definition ans_list (r : parquet_row) : per_subject (list string) := {|
  of_science := STRING_SPLIT (COALESCE (answers r science) (REPEAT "#" 45));
  of_humanities := STRING_SPLIT (COALESCE (answers r humanities) (REPEAT "#" 45));
  of_language := STRING_SPLIT (COALESCE (answers r language) (REPEAT "#" 50));
  of_math := STRING_SPLIT (COALESCE (answers r math) (REPEAT "#" 45));
|}.

Definition key_list (r : parquet_row) : per_subject (list string) := {|
  of_science := STRING_SPLIT (COALESCE (key r science) (REPEAT "." 45));
  of_humanities := STRING_SPLIT (COALESCE (key r humanities) (REPEAT "." 45));
  of_language := STRING_SPLIT (COALESCE (key r language) (REPEAT "." 50));
  of_math := STRING_SPLIT (COALESCE (key r math) (REPEAT "." 45));
|}.

(** Several [UNNEST]s in one [SELECT] run in lockstep: the row is repeated
    once per position of the longest list, and a list that has run out
    yields [NULL]. *)
Definition unnest_height (r : parquet_row) : nat :=
  foldr Nat.max 0%nat
    (length <$> [ans_list r science; key_list r science;
                 ans_list r humanities; key_list r humanities;
                 ans_list r language; key_list r language;
                 ans_list r math; key_list r math]).

Definition UNNEST {A} (l : list A) (i : nat) : option A := l !! i.

Definition answers_rows (r : parquet_row) : list Answers.row :=
  (λ i, {|
     Answers.registration_id := registration_id r;
     Answers.exam_year := exam_year r;
     Answers.ans := each (λ s, UNNEST (ans_list r s) i);
     Answers.key := each (λ s, UNNEST (key_list r s) i);
     Answers.score := score r;
     Answers.code_exam := code_exam r;
   |}) <$> seq 0 (unnest_height r).

Definition answers_cte (t : list parquet_row) : list Answers.row :=
  t ≫= answers_rows.

(** ** The [hits] common table expression (query lines 79-97) *)

Module Hits.
Record row := Row {
  registration_id : option Z;
  exam_year : option Z;
  score : per_subject (option Qc);
  code_exam : per_subject (option Z);
  hits : per_subject Z;
}.
End Hits.

(** [GROUP BY ALL] groups by every column that is not aggregated: the id, the
    year, the four scores and the four booklet codes.  Two [NULL]s fall in the
    same group. *)
Definition group_key : Type :=
  option Z * option Z * per_subject (option Qc) * per_subject (option Z).

Definition group_of (a : Answers.row) : group_key :=
  (Answers.registration_id a, Answers.exam_year a, Answers.score a, Answers.code_exam a).

(** [CASE WHEN ans = key THEN 1 ELSE 0 END] on one unnested row. *)
Definition hit (s : subject) (a : Answers.row) : Z :=
  CASE_WHEN (sql_eq (Answers.ans a s) (Answers.key a s)).

Definition hits_cte (answers : list Answers.row) : list Hits.row :=
  (λ g : group_key,
     let rows := filter (λ a, group_of a = g) answers in
     {|
       Hits.registration_id := g.1.1.1;
       Hits.exam_year := g.1.1.2;
       Hits.score := g.1.2;
       Hits.code_exam := g.2;
       Hits.hits := each (λ s, SUM (hit s <$> rows));
     |}) <$> remove_dups (group_of <$> answers).

(** ** The final [SELECT] (query lines 99-149) *)

(** [ON h.registration_id = t.registration_id AND h.exam_year = t.exam_year]. *)
Definition join_on (h : Hits.row) (t : parquet_row) : bool :=
  holds (sql_and (sql_eq (Hits.registration_id h) (registration_id t))
                 (sql_eq (Hits.exam_year h) (exam_year t))).

(** [l LEFT JOIN r ON on]: one row per match, and a row with no right side
    for a left row without a match. *)
Definition LEFT_JOIN {A B} (on : A → B → bool) (l : list A) (r : list B)
  : list (A * option B) :=
  l ≫= λ a,
    match filter (λ b, on a b) r with
    | [] => [(a, None)]
    | matches => (λ b, (a, Some b)) <$> matches
    end.

(** [MEDIAN]: the continuous quantile at 1/2 of the values that are not
    [NULL].  With [n] values in increasing order and [RN = (n - 1) / 2], the
    result is the value at [RN] when [RN] is whole, and otherwise
    [lo + (hi - lo) * (RN - floor RN)] for the values [lo], [hi] at the floor
    and the ceiling of [RN].  No value: [NULL]. *)
Definition MEDIAN (vals : list (option Qc)) : option Qc :=
  let sorted := merge_sort Qcle (omap id vals) in
  let n := length sorted in
  let FRN := ((n - 1) / 2)%nat in
  let CRN := (n / 2)%nat in
  lo ← sorted !! FRN;
  hi ← sorted !! CRN;
  Some (if decide (FRN = CRN) then lo else lo + (hi - lo) * Q2Qc (1 # 2))%Qc.

Definition joined_row : Type := Hits.row * option parquet_row.

(** The window [OVER (PARTITION BY h.exam_year, h.hits_s)] of a row: the rows
    of the joined relation with the same year and the same hits in [s]. *)
Definition partition_by (s : subject) (j : joined_row) (rel : list joined_row)
  : list joined_row :=
  filter (λ j' : joined_row,
            Hits.exam_year j'.1 = Hits.exam_year j.1
            ∧ Hits.hits j'.1 s = Hits.hits j.1 s) rel.

(** [MEDIAN(h.score_s) OVER (PARTITION BY h.exam_year, h.hits_s)]. *)
Definition median_over (s : subject) (j : joined_row) (rel : list joined_row)
  : option Qc :=
  MEDIAN ((λ j' : joined_row, Hits.score j'.1 s) <$> partition_by s j rel).

Module Out.
Record row := Row {
  registration_id : option Z;
  exam_year : option Z;
  score : per_subject (option Qc);
  code_exam : per_subject (option Z);
  hits : per_subject Z;
  median_score : per_subject (option Qc);
  above_median : per_subject Z;
  sex : option Z;
  race_color : option Z;
  school_type : option Z;
  teaching_mode : option Z;
  presence : per_subject (option Z);
  family_income_bracket : option Z;
  school_funding_src : option Z;
  school_admin_dependency : option Z;
}.
End Out.

(** A column [t.c] of the right side: [NULL] when the left row has no match. *)
Definition t_col {A} (c : parquet_row → option A) (t : option parquet_row)
  : option A := t ≫= c.

Definition select_row (rel : list joined_row) (j : joined_row) : Out.row :=
  let (h, t) := j in {|
    Out.registration_id := Hits.registration_id h;
    Out.exam_year := Hits.exam_year h;
    Out.score := Hits.score h;
    Out.code_exam := Hits.code_exam h;
    Out.hits := Hits.hits h;
    Out.median_score := each (λ s, median_over s j rel);
    Out.above_median :=
      each (λ s, CASE_WHEN (sql_ge (Hits.score h s) (median_over s j rel)));
    Out.sex := t_col sex t;
    Out.race_color := t_col race_color t;
    Out.school_type := t_col school_type t;
    Out.teaching_mode := t_col teaching_mode t;
    Out.presence := each (λ s, t_col (λ r, presence r s) t);
    Out.family_income_bracket := t_col family_income_bracket t;
    Out.school_funding_src := t_col school_funding_src t;
    Out.school_admin_dependency := t_col school_admin_dependency t;
  |}.

(** The whole query over the rows of the source file.  The [LIMIT] clause
    appears twice.  In [answers] it closes the [SELECT] that carries the
    [UNNEST]s, so it keeps the first [sample_size] unnested rows (positions),
    not the first [sample_size] candidates; in the subquery [t] it keeps the
    first [sample_size] rows of the file. *)
Definition query (parquet : list parquet_row) (sample_size : option nat)
  : list Out.row :=
  let answers := LIMIT sample_size (answers_cte parquet) in
  let hits := hits_cte answers in
  let rel := LEFT_JOIN join_on hits (LIMIT sample_size parquet) in
  select_row rel <$> rel.

(** ** Files and the two scripts

    The scripts communicate through files only.  A file system maps a path
    (relative to [PROJECT_ROOT]) to the table stored there; a call either
    returns or raises, and leaves a file system behind. *)

Inductive file :=
  | csv_file (rows : list csv_row)
  | enem_parquet (rows : list parquet_row)
  | hits_parquet (rows : list Out.row).

Inductive error :=
  | FileNotFoundError
  | PolarsError
  | DuckDBError.

Inductive result (A : Type) :=
  | Return (a : A)
  | Raise (e : error).
Arguments Return {A} _.
Arguments Raise {A} _.

Definition CSV_PATH : string :=
  "data/raw/microdados_enem_2017/DADOS/MICRODADOS_ENEM_2017.csv".
Definition OUT_PATH : string :=
  "data/processed/microdados_enem_2017/enem_2017.parquet".
Definition SOURCE_PARQUET : string :=
  "data/processed/microdados_enem_2017/enem_2017.parquet".
Definition HITS_PARQUET : string :=
  "data/processed/microdados_enem_2017/enem_2017_hits.parquet".

(** [compute_hits(parquet_path, out_path, sample_size)].  The query names the
    columns of the processed table, so the engine rejects any other file. *)
Definition compute_hits (parquet_path out_path : string)
    (sample_size : option nat) (fs : gmap string file)
  : result string * gmap string file :=
  match fs !! parquet_path with
  | None => (Raise FileNotFoundError, fs)
  | Some (enem_parquet rows) =>
      let df := query rows sample_size in
      (Return out_path, <[out_path := hits_parquet df]> fs)
  | Some _ => (Raise DuckDBError, fs)
  end.

(** [pl.col(c).rank("dense")]: the rank of a value is one more than the
    number of distinct smaller values of the column; a null stays null. *)
Definition rank_dense (column : list (option string)) (v : option string)
  : option Z :=
  (λ w, 1 + Z.of_nat (length (remove_dups
          (filter (λ u, String.ltb u w) (omap id column))))) <$> v.

(** [.cast(pl.Int16)] is strict: a value out of range makes the cast raise. *)
Definition fits_Int16 (v : option Z) : Prop :=
  match v with
  | Some z => -32768 ≤ z ≤ 32767
  | None => True
  end.

Global Instance fits_Int16_dec v : Decision (fits_Int16 v).
Proof. destruct v; simpl; apply _. Defined.

(** [_transform]: rename the columns (rows here already carry the new names)
    and replace each categorical column by its dense rank as [Int16]. *)
Definition _transform (df : list csv_row) : result (list parquet_row) :=
  let encoded := (λ r : csv_row, {|
      registration_id := registration_id r;
      exam_year := exam_year r;
      sex := rank_dense (sex <$> df) (sex r);
      race_color := race_color r;
      hs_completion_status := hs_completion_status r;
      school_type := school_type r;
      teaching_mode := teaching_mode r;
      is_tester := is_tester r;
      school_admin_dependency := school_admin_dependency r;
      school_location := school_location r;
      school_oper_status := school_oper_status r;
      code_exam := code_exam r;
      presence := presence r;
      answers := answers r;
      key := key r;
      score := score r;
      family_income_bracket :=
        rank_dense (family_income_bracket <$> df) (family_income_bracket r);
      school_funding_src :=
        rank_dense (school_funding_src <$> df) (school_funding_src r);
    |}) <$> df in
  if decide (Forall (λ r : parquet_row,
                       fits_Int16 (sex r)
                       ∧ fits_Int16 (family_income_bracket r)
                       ∧ fits_Int16 (school_funding_src r)) encoded)
  then Return encoded
  else Raise PolarsError.

(** The filter of [build]: present (flag 1) in all four subjects. *)
Definition present_in_all {C} (r : candidate C) : bool :=
  holds (sql_and (sql_and (sql_and
           (sql_eq (presence r science) (Some 1))
           (sql_eq (presence r humanities) (Some 1)))
           (sql_eq (presence r language) (Some 1)))
           (sql_eq (presence r math) (Some 1))).

(** [build()]: read the CSV, transform, filter, write the parquet file. *)
Definition build (fs : gmap string file) : result string * gmap string file :=
  match fs !! CSV_PATH with
  | Some (csv_file rows) =>
      match _transform rows with
      | Return df =>
          let df := filter (λ r, present_in_all r) df in
          (Return OUT_PATH, <[OUT_PATH := enem_parquet df]> fs)
      | Raise e => (Raise e, fs)
      end
  | Some _ => (Raise PolarsError, fs)
  | None => (Raise FileNotFoundError, fs)
  end.

(** ** Vocabulary of the specification

    These definitions follow the words of the specification, not the query;
    the theorems below compare the two. *)

(** The positions [i] in [[0, L)] at which [answers[i] == key[i]]. *)
Definition matching_positions (answers key : string) (L : nat) : list nat :=
  filter (λ i, String.get i answers = String.get i key) (seq 0 L).

(** The records of the output sharing the (exam year, hits) of [o] in subject
    [s], and their scores that are not absent. *)
Definition group (s : subject) (o : Out.row) (out : list Out.row)
  : list Out.row :=
  filter (λ o', Out.exam_year o' = Out.exam_year o
                ∧ Out.hits o' s = Out.hits o s) out.

Definition group_scores (s : subject) (o : Out.row) (out : list Out.row)
  : list Qc :=
  omap (λ o', Out.score o' s) (group s o out).

(** [sorted] lists the order statistics of [G]: the same scores, in
    increasing order. *)
Definition order_statistics (G sorted : list Qc) : Prop :=
  Sorted Qcle sorted ∧ sorted ≡ₚ G.

(** The median of a collection of scores: absent when it is empty, the
    central order statistic when its size is odd, the arithmetic mean of the
    two central order statistics when its size is even. *)
Inductive median_of (G : list Qc) : option Qc → Prop :=
  | median_empty :
      G = [] → median_of G None
  | median_odd sorted k x :
      order_statistics G sorted →
      length G = (2 * k + 1)%nat →
      sorted !! k = Some x →
      median_of G (Some x)
  | median_even sorted k lo hi :
      order_statistics G sorted →
      length G = (2 * k + 2)%nat →
      sorted !! k = Some lo →
      sorted !! S k = Some hi →
      median_of G (Some ((lo + hi) / Qc_of_Z 2)%Qc).

(** A string made of the character [c] only. *)
Definition all_chars (c : ascii) (s : string) : Prop :=
  ∀ i x, String.get i s = Some x → x = c.

(** A string over an alphabet. *)
Definition over (alphabet : ascii → Prop) (s : string) : Prop :=
  ∀ i x, String.get i s = Some x → alphabet x.

(** ** Definitions derived from the query, used in statements and proofs *)

Global Instance Q_eq_dec : EqDecision Q.
Proof. solve_decision. Defined.

(** The record of the hits set computed from candidate [r] alone: its own
    columns, and per subject the matches among its own unnested rows. *)
Definition hits_row (r : parquet_row) : Hits.row := {|
  Hits.registration_id := registration_id r;
  Hits.exam_year := exam_year r;
  Hits.score := score r;
  Hits.code_exam := code_exam r;
  Hits.hits := each (λ s, SUM (hit s <$> answers_rows r));
|}.

(** The attribute rows a record of the hits set is joined with. *)
Definition matches (h : Hits.row) (t : list parquet_row) : list parquet_row :=
  filter (λ r, join_on h r) t.

(** The columns of a candidate that [GROUP BY ALL] groups by. *)
Definition candidate_key (r : parquet_row) : group_key :=
  (registration_id r, exam_year r, score r, code_exam r).

(** Matches of two unnested lists compared position by position, up to the
    end of the shorter one. *)
Fixpoint aligned_matches (la lk : list string) : Z :=
  match la, lk with
  | a :: la', k :: lk' =>
      (if decide (a = k) then 1 else 0) + aligned_matches la' lk'
  | _, _ => 0
  end.

(** The attribute row a candidate is joined with when ids are unique: its
    own row, provided its id and year are not [NULL]. *)
Definition own_match (r : parquet_row) : option parquet_row :=
  if join_on (hits_row r) r then Some r else None.

Definition unique_rel (t : list parquet_row) : list joined_row :=
  (λ r, (hits_row r, own_match r)) <$> t.

(** The joined relation the final [SELECT] ranges over. *)
Definition joined (parquet : list parquet_row) (sample_size : option nat)
  : list joined_row :=
  LEFT_JOIN join_on (hits_cte (LIMIT sample_size (answers_cte parquet)))
    (LIMIT sample_size parquet).

(** The answers and the key of a candidate as the query compares them. *)
Definition answers_or_sentinel (r : parquet_row) (s : subject) : string :=
  COALESCE (answers r s) (REPEAT "#" (subject_length s)).

Definition key_or_sentinel (r : parquet_row) (s : subject) : string :=
  COALESCE (key r s) (REPEAT "." (subject_length s)).

(** The columns [h.*] of an output record, as a record of the hits set. *)
Definition hits_columns (o : Out.row) : Hits.row := {|
  Hits.registration_id := Out.registration_id o;
  Hits.exam_year := Out.exam_year o;
  Hits.score := Out.score o;
  Hits.code_exam := Out.code_exam o;
  Hits.hits := Out.hits o;
|}.

(** The passthrough attributes of an output record are all absent. *)
Definition passthrough_absent (o : Out.row) : Prop :=
  Out.sex o = None ∧ Out.race_color o = None ∧ Out.school_type o = None
  ∧ Out.teaching_mode o = None ∧ (∀ s, Out.presence o s = None)
  ∧ Out.family_income_bracket o = None ∧ Out.school_funding_src o = None
  ∧ Out.school_admin_dependency o = None.

(** The passthrough attributes of an output record are those of the
    attribute row [r]. *)
Definition passthrough_of (r : parquet_row) (o : Out.row) : Prop :=
  Out.sex o = sex r ∧ Out.race_color o = race_color r
  ∧ Out.school_type o = school_type r
  ∧ Out.teaching_mode o = teaching_mode r
  ∧ (∀ s, Out.presence o s = presence r s)
  ∧ Out.family_income_bracket o = family_income_bracket r
  ∧ Out.school_funding_src o = school_funding_src r
  ∧ Out.school_admin_dependency o = school_admin_dependency r.

(** ** Sample tables *)

Definition absent {A} : per_subject (option A) := each (λ _, None).

(** A candidate with the given id, year, answers, keys and scores, present
    everywhere, every other attribute missing. *)
Definition sample (id year : Z) (a k : per_subject (option string))
    (sc : per_subject (option Qc)) : parquet_row := {|
  registration_id := Some id;
  exam_year := Some year;
  sex := None;
  race_color := None;
  hs_completion_status := None;
  school_type := None;
  teaching_mode := None;
  is_tester := None;
  school_admin_dependency := None;
  school_location := None;
  school_oper_status := None;
  code_exam := absent;
  presence := each (λ _, Some 1);
  answers := a;
  key := k;
  score := sc;
  family_income_bracket := None;
  school_funding_src := None;
|}.

Definition only (s : subject) {A} (x : A) : per_subject (option A) :=
  each (λ s', if decide (s' = s) then Some x else None).

(** Answers "ABCD" against the key "ABXD" in science. *)
Definition abcd_table : list parquet_row :=
  [sample 1 2017 (only science "ABCD") (only science "ABXD") absent].

(** Ten hits in math out of 45, with the given score. *)
Definition ten_hits (id : Z) (sc : option Qc) : parquet_row :=
  sample id 2017
    (only math (REPEAT "A" 10 +:+ REPEAT "B" 35))
    (only math (REPEAT "A" 45))
    (each (λ s, if decide (s = math) then sc else None)).

Definition two_scores_table : list parquet_row :=
  [ten_hits 1 (Some (Qc_of_Z 500)); ten_hits 2 (Some (Qc_of_Z 600))].

Definition three_scores_table : list parquet_row :=
  two_scores_table ++ [ten_hits 3 (Some (Qc_of_Z 550))].

Definition with_absent_score_table : list parquet_row :=
  two_scores_table ++ [ten_hits 4 None].

(** Answers and key of 46 characters, all equal, in science. *)
Definition overlong_table : list parquet_row :=
  [sample 1 2017 (only science (REPEAT "A" 46)) (only science (REPEAT "A" 46))
     absent].

(** Two rows with the same id and year and different scores. *)
Definition duplicate_id_table : list parquet_row :=
  [sample 7 2017 absent absent (only math (Qc_of_Z 500));
   sample 7 2017 absent absent (only math (Qc_of_Z 600))].

(** A row without registration id. *)
Definition no_id_table : list parquet_row :=
  [ {| registration_id := None; exam_year := Some 2017;
       sex := Some 1; race_color := Some 1; hs_completion_status := None;
       school_type := Some 2; teaching_mode := None; is_tester := None;
       school_admin_dependency := None; school_location := None;
       school_oper_status := None; code_exam := absent;
       presence := each (λ _, Some 1); answers := absent; key := absent;
       score := absent; family_income_bracket := None;
       school_funding_src := None |} ].

(** A CSV table with one candidate present everywhere and one absent from
    the math test. *)
Definition csv_sample (id : Z) (math_flag : option Z) : csv_row := {|
  registration_id := Some id;
  exam_year := Some 2017;
  sex := Some "F";
  race_color := None;
  hs_completion_status := None;
  school_type := None;
  teaching_mode := None;
  is_tester := None;
  school_admin_dependency := None;
  school_location := None;
  school_oper_status := None;
  code_exam := absent;
  presence := PerSubject (Some 1) (Some 1) (Some 1) math_flag;
  answers := absent;
  key := absent;
  score := absent;
  family_income_bracket := Some "B";
  school_funding_src := None;
|}.

Definition csv_table : list csv_row :=
  [csv_sample 1 (Some 1); csv_sample 2 (Some 0); csv_sample 3 None].

(** A candidate whose answers in science are missing, against a key of 45
    times "A". *)
Definition absent_answers_table : list parquet_row :=
  [sample 1 2017 absent (only science (REPEAT "A" 45)) absent].

(** A file system holding the processed table only, and one holding the CSV
    file only. *)
Definition processed_fs : gmap string file :=
  {[SOURCE_PARQUET := enem_parquet two_scores_table]}.

Definition raw_fs : gmap string file :=
  {[CSV_PATH := csv_file csv_table]}.


(** A candidate whose answers and key in science are both the empty
    string. *)
Definition empty_strings_table : list parquet_row :=
  [sample 1 2017 (only science "") (only science "") absent].

(** ** Further definitions: grouped columns of an output record *)

(** The columns of an output record that the [hits] expression groups by. *)
Definition out_key (o : Out.row) : group_key :=
  (Out.registration_id o, Out.exam_year o, Out.score o, Out.code_exam o).

(** The candidates of a table that fall in the group of an output record. *)
Definition group_members (o : Out.row) (t : list parquet_row)
  : list parquet_row :=
  filter (λ r, candidate_key r = out_key o) t.

Global Instance candidate_eq_dec `{EqDecision C} : EqDecision (candidate C).
Proof. solve_decision. Defined.

(** ** Further definitions: levels of a categorical column *)

(** The distinct values of a column that are not null, in increasing order. *)
Definition levels (column : list (option string)) : list string :=
  merge_sort String.le (remove_dups (omap id column)).

(** A CSV row and a processed row agree on every column that is not
    categorical. *)
Definition same_columns (r : csv_row) (r' : parquet_row) : Prop :=
  registration_id r' = registration_id r
  ∧ exam_year r' = exam_year r
  ∧ race_color r' = race_color r
  ∧ hs_completion_status r' = hs_completion_status r
  ∧ school_type r' = school_type r
  ∧ teaching_mode r' = teaching_mode r
  ∧ is_tester r' = is_tester r
  ∧ school_admin_dependency r' = school_admin_dependency r
  ∧ school_location r' = school_location r
  ∧ school_oper_status r' = school_oper_status r
  ∧ code_exam r' = code_exam r
  ∧ presence r' = presence r
  ∧ answers r' = answers r
  ∧ key r' = key r
  ∧ score r' = score r.

(** A processed row carries the dense ranks of the categorical columns of a
    CSV row within the table [df]. *)
Definition ranked_in (df : list csv_row) (r : csv_row) (r' : parquet_row)
  : Prop :=
  sex r' = rank_dense (sex <$> df) (sex r)
  ∧ family_income_bracket r'
    = rank_dense (family_income_bracket <$> df) (family_income_bracket r)
  ∧ school_funding_src r'
    = rank_dense (school_funding_src <$> df) (school_funding_src r).

(** The largest table whose ranks always fit [Int16]. *)
Definition Int16_max : Z := 32767.

(** ** [notebooks/04_regressions.py]: data preparation

    pandas reads either parquet file; a missing value is [None].  A frame
    keeps the schema of the file it was read from. *)

Definition VALID_EXAM_CODES : list Z :=
  [392; 393; 391; 394; 395; 396; 397; 398; 399; 400; 401; 402; 403; 404; 405;
   406].

(** [AREAS]: the suffix of the columns of an ENEM area code. *)
Definition AREAS (area : string) : option subject :=
  if decide (area = "CN") then Some science
  else if decide (area = "CH") then Some humanities
  else if decide (area = "LC") then Some language
  else if decide (area = "MT") then Some math
  else None.

Inductive pandas_error :=
  | HitsNotFound
  | ArrowInvalid
  | KeyError
  | IntCastingNaNError.

(** [(column == v).astype(np.int8)]: a missing value compares unequal. *)
Definition equals_flag (x : option Z) (v : Z) : Z :=
  if decide (x = Some v) then 1 else 0.

(** [column.isin(vs).astype(np.int8)]. *)
Definition isin_flag (x : option Z) (vs : list Z) : Z :=
  match x with
  | Some v => if decide (v ∈ vs) then 1 else 0
  | None => 0
  end.

(** A row of the frame of [load_base_df]: the row as read (with
    [family_income_bracket] and [school_funding_src] under their shorter
    names) and the four indicators. *)
Record base_row (R : Type) := BaseRow {
  as_read : R;
  income_bracket : option Z;
  school_funding : option Z;
  public_school : Z;
  is_female : Z;
  is_black : Z;
  low_income : Z;
}.
Arguments BaseRow {R}.
Arguments as_read {R} _.
Arguments income_bracket {R} _.
Arguments school_funding {R} _.
Arguments public_school {R} _.
Arguments is_female {R} _.
Arguments is_black {R} _.
Arguments low_income {R} _.

Inductive base_frame :=
  | hits_frame (rows : list (base_row Out.row))
  | enem_frame (rows : list (base_row parquet_row)).

Definition base_features {R} (income funding sex_ race : R → option Z)
    (r : R) : base_row R := {|
  as_read := r;
  income_bracket := income r;
  school_funding := funding r;
  public_school := equals_flag (funding r) 1;
  is_female := equals_flag (sex_ r) 1;
  is_black := equals_flag (race r) 2;
  low_income := isin_flag (income r) [1; 2];
|}.

(** [load_base_df(parquet_path)]. *)
Definition load_base_df (parquet_path : string) (fs : gmap string file)
  : pandas_error + base_frame :=
  match fs !! parquet_path with
  | None => inl HitsNotFound
  | Some (csv_file _) => inl ArrowInvalid
  | Some (hits_parquet rows) =>
      inr (hits_frame (base_features Out.family_income_bracket
             Out.school_funding_src Out.sex Out.race_color <$> rows))
  | Some (enem_parquet rows) =>
      inr (enem_frame (base_features family_income_bracket
             school_funding_src sex race_color <$> rows))
  end.

(** A row of the frame of [prepare_area_df]. *)
Module Area.
Record row := Row {
  registration_id : option Z;
  exam_year : option Z;
  income_bracket : Z;
  school_funding : option Z;
  sex : option Z;
  race_color : Z;
  public_school : Z;
  is_female : Z;
  is_black : Z;
  low_income : Z;
  exam_code : Z;
  presence : option Z;
  score : option Qc;
  hits : Z;
}.
End Area.

(** The three row filters of [prepare_area_df], in order: present, valid
    exam code, no missing value among exam code, score, hits and income
    bracket. *)
Definition kept_for_area (s : subject) (b : base_row Out.row) : Prop :=
  Out.presence (as_read b) s = Some 1
  ∧ isin_flag (Out.code_exam (as_read b) s) VALID_EXAM_CODES = 1
  ∧ is_Some (Out.code_exam (as_read b) s)
  ∧ is_Some (Out.score (as_read b) s)
  ∧ is_Some (income_bracket b).

Global Instance kept_for_area_dec s b : Decision (kept_for_area s b).
Proof. unfold kept_for_area. apply _. Defined.

(** Renaming and [astype(int)] on one row; the cast of a missing value
    raises. *)
Definition area_row (s : subject) (b : base_row Out.row) : option Area.row :=
  exam ← Out.code_exam (as_read b) s;
  income ← income_bracket b;
  race ← Out.race_color (as_read b);
  Some {|
    Area.registration_id := Out.registration_id (as_read b);
    Area.exam_year := Out.exam_year (as_read b);
    Area.income_bracket := income;
    Area.school_funding := school_funding b;
    Area.sex := Out.sex (as_read b);
    Area.race_color := race;
    Area.public_school := public_school b;
    Area.is_female := is_female b;
    Area.is_black := is_black b;
    Area.low_income := low_income b;
    Area.exam_code := exam;
    Area.presence := Out.presence (as_read b) s;
    Area.score := Out.score (as_read b) s;
    Area.hits := Out.hits (as_read b) s;
  |}.

(** [prepare_area_df(df, area)]. *)
Definition prepare_area_df (df : base_frame) (area : string)
  : pandas_error + list Area.row :=
  match AREAS area with
  | None => inl KeyError
  | Some s =>
      match df with
      | enem_frame _ => inl KeyError
      | hits_frame rows =>
          let area_df := filter (kept_for_area s) rows in
          match mapM (area_row s) area_df with
          | Some out => inr out
          | None => inl IntCastingNaNError
          end
      end
  end.

(** A candidate with every attribute the regressions use, and one without
    race. *)
Definition regression_sample (id : Z) (race : option Z) : parquet_row := {|
  registration_id := Some id;
  exam_year := Some 2017;
  sex := Some 1;
  race_color := race;
  hs_completion_status := None;
  school_type := Some 2;
  teaching_mode := None;
  is_tester := None;
  school_admin_dependency := None;
  school_location := None;
  school_oper_status := None;
  code_exam := each (λ _, Some 391);
  presence := each (λ _, Some 1);
  answers := only math (REPEAT "A" 45);
  key := only math (REPEAT "A" 45);
  score := each (λ _, Some (Qc_of_Z 700));
  family_income_bracket := Some 2;
  school_funding_src := Some 1;
|}.

Definition hits_fs (rows : list parquet_row) : gmap string file :=
  {[HITS_PARQUET := hits_parquet (query rows None)]}.

(** The four indicators of a prepared row say what their source columns
    hold. *)
Definition indicators_agree (a : Area.row) : Prop :=
  (Area.public_school a = 1 ↔ Area.school_funding a = Some 1)
  ∧ (Area.is_female a = 1 ↔ Area.sex a = Some 1)
  ∧ (Area.is_black a = 1 ↔ Area.race_color a = 2)
  ∧ (Area.low_income a = 1
     ↔ Area.income_bracket a = 1 ∨ Area.income_bracket a = 2)
  ∧ (Area.public_school a = 0 ∨ Area.public_school a = 1)
  ∧ (Area.is_female a = 0 ∨ Area.is_female a = 1)
  ∧ (Area.is_black a = 0 ∨ Area.is_black a = 1)
  ∧ (Area.low_income a = 0 ∨ Area.low_income a = 1).

(** ** [notebooks/03_plot_hits.py]: the data behind the scatter plots

    Only the series handed to the plotting library are modelled, under the
    names they have in [plot_hits]. *)

(** [above = df[df[col_above] == 1]] (legend "Score > Median") and
    [below = df[df[col_above] == 0]] (legend "Score ≤ Median"). *)
Definition above (exam : subject) (df : list Out.row) : list Out.row :=
  filter (λ o, Out.above_median o exam = 1) df.

Definition below (exam : subject) (df : list Out.row) : list Out.row :=
  filter (λ o, Out.above_median o exam = 0) df.

(** pandas' [median]: missing values are skipped; the middle value, or the
    mean of the two middle values; missing when no value is left. *)
Definition pandas_median (vals : list (option Qc)) : option Qc :=
  let sorted := merge_sort Qcle (omap id vals) in
  let n := length sorted in
  if decide (n = 0%nat) then None
  else if Nat.even n then
    lo ← sorted !! (n / 2 - 1)%nat;
    hi ← sorted !! (n / 2)%nat;
    Some ((lo + hi) / Qc_of_Z 2)%Qc
  else sorted !! (n / 2)%nat.

(** [median_plot = df.groupby(col_hits)[col_score].median()]: one entry per
    number of hits, in increasing order. *)
Definition median_plot (exam : subject) (df : list Out.row)
  : list (Z * option Qc) :=
  (λ h, (h, pandas_median ((λ o, Out.score o exam)
                             <$> filter (λ o, Out.hits o exam = h) df)))
    <$> merge_sort Z.le (remove_dups ((λ o, Out.hits o exam) <$> df)).

(** * Proofs *)

(** ** Lists *)

Section list_facts.
Context {A : Type}.
Implicit Types l : list A.

Lemma filter_all (P : A → Prop) `{!∀ x, Decision (P x)} l :
  (∀ x, x ∈ l → P x) → filter P l = l.
Proof.
  induction l as [|x l IH]; intros HP; [done|].
  rewrite filter_cons_True by (apply HP; left).
  f_equal. apply IH. intros y Hy. apply HP. by right.
Qed.

Lemma filter_none (P : A → Prop) `{!∀ x, Decision (P x)} l :
  (∀ x, x ∈ l → ¬ P x) → filter P l = [].
Proof.
  induction l as [|x l IH]; intros HP; [done|].
  rewrite filter_cons_False by (apply HP; left).
  apply IH. intros y Hy. apply HP. by right.
Qed.

Lemma remove_dups_block `{!EqDecision A} (x : A) b l :
  b ≠ [] → (∀ y, y ∈ b → y = x) → x ∉ l →
  remove_dups (b ++ l) = x :: remove_dups l.
Proof.
  induction b as [|y b IH]; intros Hne Hall Hx; [done|].
  assert (y = x) as -> by (apply Hall; left).
  simpl. destruct b as [|z b].
  - simpl. by destruct (decide_rel (∈) x l).
  - destruct (decide_rel (∈) x ((z :: b) ++ l)) as [_|Hnin].
    + apply IH; [done| |done]. intros w Hw. apply Hall. by right.
    + destruct Hnin. assert (z = x) as -> by (apply Hall; right; left). left.
Qed.
End list_facts.

(** ** Splitting and unnesting *)

Lemma length_chars s : length (chars s) = String.length s.
Proof. induction s; simpl; congruence. Qed.

Lemma length_STRING_SPLIT s :
  length (STRING_SPLIT s) = Nat.max 1 (String.length s).
Proof. destruct s; [done|]. unfold STRING_SPLIT. rewrite length_chars. simpl. lia. Qed.

Lemma ans_list_height r s : (length (ans_list r s) ≤ unnest_height r)%nat.
Proof. unfold unnest_height. destruct s; simpl; lia. Qed.

Lemma key_list_height r s : (length (key_list r s) ≤ unnest_height r)%nat.
Proof. unfold unnest_height. destruct s; simpl; lia. Qed.

Lemma unnest_height_pos r : (0 < unnest_height r)%nat.
Proof.
  pose proof (ans_list_height r science) as H.
  simpl in H. rewrite length_STRING_SPLIT in H. lia.
Qed.

Lemma answers_rows_nonempty r : answers_rows r ≠ [].
Proof.
  unfold answers_rows. pose proof (unnest_height_pos r).
  destruct (unnest_height r); [lia|done].
Qed.

(** ** Grouping: one group per candidate when ids are unique *)

Lemma group_of_answers_rows r a : a ∈ answers_rows r → group_of a = candidate_key r.
Proof.
  unfold answers_rows. intros (i & -> & _)%list_elem_of_fmap. done.
Qed.

Lemma group_of_answers_cte t a :
  a ∈ answers_cte t → ∃ r, r ∈ t ∧ a ∈ answers_rows r.
Proof. unfold answers_cte. intros (r & ? & ?)%list_elem_of_bind. eauto. Qed.

Lemma NoDup_candidate_key t :
  NoDup (registration_id <$> t) → NoDup (candidate_key <$> t).
Proof.
  intros H. apply (NoDup_fmap_1 (λ k : group_key, k.1.1.1)).
  by rewrite <- list_fmap_compose.
Qed.

Lemma groups_of_answers_cte t :
  NoDup (candidate_key <$> t) →
  remove_dups (group_of <$> answers_cte t) = candidate_key <$> t.
Proof.
  unfold answers_cte. induction t as [|r t IH]; intros Hnd; [done|].
  rewrite bind_cons, fmap_app, fmap_cons.
  apply NoDup_cons in Hnd as [Hr Hnd].
  rewrite <- IH by done.
  apply remove_dups_block.
  - intros Hnil%fmap_nil_inv. by apply (answers_rows_nonempty r).
  - intros k (a & -> & Ha)%list_elem_of_fmap. by apply group_of_answers_rows.
  - intros (a & Hk & Ha)%list_elem_of_fmap.
    apply group_of_answers_cte in Ha as (r' & Hr' & Ha).
    apply Hr. rewrite Hk, (group_of_answers_rows r' a Ha).
    by apply list_elem_of_fmap_2.
Qed.

Lemma group_rows_of_candidate t r :
  NoDup (candidate_key <$> t) → r ∈ t →
  filter (λ a, group_of a = candidate_key r) (answers_cte t) = answers_rows r.
Proof.
  unfold answers_cte. induction t as [|r' t IH]; intros Hnd Hr.
  { by apply elem_of_nil in Hr. }
  rewrite fmap_cons in Hnd. apply NoDup_cons in Hnd as [Hr' Hnd].
  rewrite bind_cons, filter_app.
  destruct (decide (candidate_key r' = candidate_key r)) as [Heq|Hne].
  - assert (r ∉ t) as Hnotin.
    { intros Hin. apply Hr'. rewrite Heq. by apply list_elem_of_fmap_2. }
    apply elem_of_cons in Hr as [->|Hr]; [|done].
    rewrite filter_all by (intros a Ha; by apply group_of_answers_rows).
    rewrite filter_none; [by rewrite app_nil_r|].
    intros a (r2 & Hr2 & Ha)%group_of_answers_cte Hk.
    apply Hr'. rewrite <- Hk, (group_of_answers_rows r2 a Ha).
    by apply list_elem_of_fmap_2.
  - apply elem_of_cons in Hr as [->|Hr]; [done|].
    rewrite filter_none.
    + simpl. by apply IH.
    + intros a Ha Hk. apply Hne. rewrite <- Hk. symmetry.
      by apply group_of_answers_rows.
Qed.

Lemma hits_cte_unique t :
  NoDup (registration_id <$> t) →
  hits_cte (answers_cte t) = hits_row <$> t.
Proof.
  intros Hnd%NoDup_candidate_key. unfold hits_cte.
  rewrite groups_of_answers_cte by done.
  rewrite <- list_fmap_compose.
  apply Forall_fmap_ext, Forall_forall. intros r Hr. simpl.
  rewrite group_rows_of_candidate by done. done.
Qed.

(** ** Counting the hits of a candidate *)

Lemma col_each {A} (f : subject → A) s : col (each f) s = f s.
Proof. by destruct s. Qed.

Lemma filter_fmap {A B} (f : A → B) (P : B → Prop) `{!∀ x, Decision (P x)} (l : list A) :
  filter P (f <$> l) = f <$> filter (λ x, P (f x)) l.
Proof.
  induction l as [|x l IH]; [done|].
  rewrite fmap_cons, !filter_cons. case_decide; [|done].
  by rewrite fmap_cons, IH.
Qed.

Lemma SUM_zero {A} (f : A → Z) l : (∀ x, f x = 0) → SUM (f <$> l) = 0.
Proof. intros Hf. induction l as [|x l IH]; [done|]. simpl. rewrite Hf. apply IH. Qed.

Lemma SUM_lockstep (la lk : list string) n :
  (Nat.min (length la) (length lk) ≤ n)%nat →
  SUM ((λ i, CASE_WHEN (sql_eq (UNNEST la i) (UNNEST lk i))) <$> seq 0 n)
  = aligned_matches la lk.
Proof.
  revert lk n. induction la as [|a la IH]; intros lk n Hn.
  { simpl. apply SUM_zero. intros i. done. }
  destruct lk as [|k lk].
  { change (aligned_matches (a :: la) []) with 0. apply SUM_zero. intros i.
    unfold UNNEST. rewrite lookup_nil. by destruct ((a :: la) !! i). }
  destruct n as [|n]; [simpl in Hn; lia|].
  rewrite <- cons_seq, fmap_cons, <- fmap_S_seq, <- list_fmap_compose.
  simpl. f_equal.
  - unfold CASE_WHEN. simpl. by case_bool_decide; case_decide.
  - apply IH. simpl in Hn. lia.
Qed.

Lemma hits_of_answers_rows r s :
  SUM (hit s <$> answers_rows r) = aligned_matches (ans_list r s) (key_list r s).
Proof.
  unfold answers_rows. rewrite <- list_fmap_compose.
  rewrite <- (SUM_lockstep _ _ (unnest_height r)).
  - f_equal. apply list_fmap_ext. intros _ i _. unfold hit. simpl.
    by rewrite !col_each.
  - pose proof (ans_list_height r s). lia.
Qed.

Lemma aligned_matches_chars a k :
  aligned_matches (chars a) (chars k)
  = Z.of_nat (length (matching_positions a k (Nat.min (String.length a) (String.length k)))).
Proof.
  revert k. induction a as [|c a IH]; intros k; [done|].
  destruct k as [|d k]; [done|].
  simpl chars. simpl aligned_matches. rewrite IH.
  simpl String.length. simpl Nat.min. unfold matching_positions.
  rewrite <- cons_seq, <- fmap_S_seq, filter_cons, filter_fmap.
  simpl String.get.
  destruct (decide (String c "" = String d "")) as [Heq|Hne];
    destruct (decide (Some c = Some d)) as [Heq'|Hne'];
    simpl length; rewrite ?length_fmap; try lia.
  - destruct Hne'. congruence.
  - destruct Hne. congruence.
Qed.

Lemma aligned_matches_STRING_SPLIT a k :
  ¬ (a = "" ∧ k = "") →
  aligned_matches (STRING_SPLIT a) (STRING_SPLIT k)
  = Z.of_nat (length (matching_positions a k (Nat.min (String.length a) (String.length k)))).
Proof.
  intros Hne. destruct a as [|c a], k as [|d k].
  - by destruct Hne.
  - done.
  - simpl. by destruct (chars a).
  - apply (aligned_matches_chars (String c a) (String d k)).
Qed.

(** The corner left out above: two empty strings both split into the single
    element [''], which counts as one match. *)
Remark aligned_matches_both_empty :
  aligned_matches (STRING_SPLIT "") (STRING_SPLIT "") = 1.
Proof. done. Qed.

(** ** Joining: one match per candidate when ids are unique *)

Lemma NoDup_fmap_eq {A B} (f : A → B) (l : list A) x y :
  NoDup (f <$> l) → x ∈ l → y ∈ l → f x = f y → x = y.
Proof.
  induction l as [|z l IH]; intros Hnd Hx Hy Hf.
  { by apply elem_of_nil in Hx. }
  rewrite fmap_cons in Hnd. apply NoDup_cons in Hnd as [Hz Hnd].
  apply elem_of_cons in Hx as [->|Hx]; apply elem_of_cons in Hy as [->|Hy].
  - done.
  - destruct Hz. rewrite Hf. by apply list_elem_of_fmap_2.
  - destruct Hz. rewrite <- Hf. by apply list_elem_of_fmap_2.
  - by apply IH.
Qed.

Lemma filter_the_one {A} (P : A → Prop) `{!∀ x, Decision (P x)} (l : list A) r :
  NoDup l → r ∈ l → P r → (∀ x, x ∈ l → P x → x = r) → filter P l = [r].
Proof.
  induction l as [|z l IH]; intros Hnd Hr HP Huniq.
  { by apply elem_of_nil in Hr. }
  apply NoDup_cons in Hnd as [Hz Hnd].
  apply elem_of_cons in Hr as [->|Hr].
  - rewrite filter_cons_True by done. f_equal.
    apply filter_none. intros x Hx HPx.
    apply Hz. rewrite <- (Huniq x); [done| by right | done].
  - rewrite filter_cons_False.
    + apply IH; [done..|]. intros x Hx. apply Huniq. by right.
    + intros HPz. apply Hz. rewrite (Huniq z); [done| left | done].
Qed.

Lemma bind_singletons {A B} (g : A → list B) (f : A → B) (l : list A) :
  (∀ x, x ∈ l → g x = [f x]) → l ≫= g = f <$> l.
Proof.
  induction l as [|x l IH]; intros Hg; [done|].
  rewrite bind_cons, fmap_cons, Hg by left. simpl. f_equal.
  apply IH. intros y Hy. apply Hg. by right.
Qed.

Lemma join_on_spec h r :
  join_on h r ↔
  ∃ i y, Hits.registration_id h = Some i ∧ registration_id r = Some i
       ∧ Hits.exam_year h = Some y ∧ exam_year r = Some y.
Proof.
  unfold join_on. split.
  - destruct (Hits.registration_id h) as [i|], (registration_id r) as [i'|],
      (Hits.exam_year h) as [y|], (exam_year r) as [y'|]; simpl;
      repeat case_bool_decide; simpl; try done.
    subst. eauto 10.
  - intros (i & y & -> & -> & -> & ->). simpl.
    by rewrite !bool_decide_eq_true_2.
Qed.

Lemma matches_unique t r :
  NoDup (registration_id <$> t) → r ∈ t →
  matches (hits_row r) t = option_list (own_match r).
Proof.
  intros Hnd Hr. unfold matches, own_match.
  destruct (join_on (hits_row r) r) eqn:Hown; simpl.
  - apply filter_the_one; [by eapply NoDup_fmap_1|done|by rewrite Hown|].
    intros x Hx (i & y & Hi & Hi' & _)%join_on_spec.
    eapply NoDup_fmap_eq; [done..|]. simpl in Hi. congruence.
  - apply filter_none. intros x Hx Hj.
    assert (x = r) as ->; [|by rewrite Hown in Hj].
    apply join_on_spec in Hj as (i & y & Hi & Hi' & _).
    eapply NoDup_fmap_eq; [done..|]. simpl in Hi. congruence.
Qed.

Lemma LEFT_JOIN_unique t :
  NoDup (registration_id <$> t) →
  LEFT_JOIN join_on (hits_row <$> t) t = unique_rel t.
Proof.
  intros Hnd. unfold LEFT_JOIN, unique_rel. rewrite list_fmap_bind.
  apply bind_singletons. intros r Hr. simpl.
  pose proof (matches_unique t r Hnd Hr) as Hm. unfold matches in Hm.
  rewrite Hm. by destruct (own_match r).
Qed.

Lemma query_unique parquet :
  NoDup (registration_id <$> parquet) →
  query parquet None = select_row (unique_rel parquet) <$> unique_rel parquet.
Proof.
  intros Hnd. unfold query, LIMIT.
  by rewrite hits_cte_unique, LEFT_JOIN_unique.
Qed.

(** ** The median *)

Lemma half_Qc (lo hi : Qc) :
  (lo + (hi - lo) * Q2Qc (1 # 2) = (lo + hi) / Qc_of_Z 2)%Qc.
Proof.
  assert (Qc_of_Z 2 = 1 + 1)%Qc as -> by (by apply Qc_is_canon).
  assert (Q2Qc (1 # 2) = / (1 + 1))%Qc as -> by (by apply Qc_is_canon).
  field. intros H. by apply (f_equal this) in H.
Qed.

Lemma div2_even k : (2 * k / 2 = k)%nat.
Proof. rewrite Nat.mul_comm. by apply Nat.div_mul. Qed.

Lemma div2_odd k : ((2 * k + 1) / 2 = k)%nat.
Proof.
  replace (2 * k + 1)%nat with (1 + k * 2)%nat by lia.
  by rewrite Nat.div_add.
Qed.

Lemma MEDIAN_median_of vals : median_of (omap id vals) (MEDIAN vals).
Proof.
  unfold MEDIAN. cbv zeta.
  set (G := omap id vals). set (sorted := merge_sort Qcle G).
  assert (order_statistics G sorted) as Hos.
  { split; [apply Sorted_merge_sort, _|apply merge_sort_Permutation]. }
  assert (length sorted = length G) as Hlen by (by rewrite (proj2 Hos)).
  rewrite Hlen.
  destruct (Nat.Even_or_Odd (length G)) as [[k Hk]|[k Hk]].
  - destruct k as [|k].
    + assert (G = []) as HG by (apply nil_length_inv; lia).
      assert (sorted = []) as -> by (apply nil_length_inv; lia).
      rewrite Hk. simpl. by apply median_empty.
    + replace (length G - 1)%nat with (2 * k + 1)%nat by lia.
      rewrite Hk, div2_odd, div2_even.
      destruct (lookup_lt_is_Some_2 sorted k) as [lo Hlo]; [lia|].
      destruct (lookup_lt_is_Some_2 sorted (S k)) as [hi Hhi]; [lia|].
      rewrite Hlo, Hhi. simpl. rewrite decide_False by lia.
      rewrite half_Qc. eapply median_even; [done| |done..]. lia.
  - replace (length G - 1)%nat with (2 * k)%nat by lia.
    rewrite Hk, div2_odd, div2_even.
    destruct (lookup_lt_is_Some_2 sorted k) as [x Hx]; [lia|].
    rewrite Hx. simpl. rewrite decide_True by done.
    eapply median_odd; [done| |done]. lia.
Qed.

Lemma MEDIAN_is_Some vals x : Some x ∈ vals → is_Some (MEDIAN vals).
Proof.
  intros Hx. pose proof (MEDIAN_median_of vals) as Hm.
  inversion Hm as [HG| |]; [|done..].
  assert (x ∈ omap id vals) as Hin by (apply list_elem_of_omap; eauto).
  rewrite HG in Hin. by apply elem_of_nil in Hin.
Qed.

(** ** Output records *)

Lemma query_joined parquet ss :
  query parquet ss = select_row (joined parquet ss) <$> joined parquet ss.
Proof. done. Qed.

Lemma select_row_hits rel j :
  Out.registration_id (select_row rel j) = Hits.registration_id j.1
  ∧ Out.exam_year (select_row rel j) = Hits.exam_year j.1
  ∧ Out.score (select_row rel j) = Hits.score j.1
  ∧ Out.hits (select_row rel j) = Hits.hits j.1.
Proof. by destruct j. Qed.

Lemma select_row_median rel j s :
  Out.median_score (select_row rel j) s = median_over s j rel.
Proof. destruct j. simpl. by rewrite col_each. Qed.

Lemma select_row_above rel j s :
  Out.above_median (select_row rel j) s
  = CASE_WHEN (sql_ge (Out.score (select_row rel j) s)
                      (Out.median_score (select_row rel j) s)).
Proof. destruct j. simpl. by rewrite !col_each. Qed.

Lemma omap_id_fmap {A B} (f : A → option B) (l : list A) :
  omap id (f <$> l) = omap f l.
Proof.
  induction l as [|x l IH]; [done|]. csimpl. by rewrite IH.
Qed.

Lemma group_scores_select rel j s :
  group_scores s (select_row rel j) (select_row rel <$> rel)
  = omap id ((λ j' : joined_row, Hits.score j'.1 s) <$> partition_by s j rel).
Proof.
  unfold group_scores, group, partition_by.
  rewrite filter_fmap, omap_id_fmap.
  destruct (select_row_hits rel j) as (_ & -> & _ & ->).
  erewrite (list_filter_iff _ (λ j' : joined_row,
    Hits.exam_year j'.1 = Hits.exam_year j.1 ∧ Hits.hits j'.1 s = Hits.hits j.1 s)).
  - generalize (filter (λ j' : joined_row,
      Hits.exam_year j'.1 = Hits.exam_year j.1
      ∧ Hits.hits j'.1 s = Hits.hits j.1 s) rel).
    intros l. induction l as [|x l IH]; [done|].
    csimpl. destruct (select_row_hits rel x) as (_ & _ & -> & _). by rewrite IH.
  - intros x. by destruct (select_row_hits rel x) as (_ & -> & _ & ->).
Qed.

Lemma median_score_of_group parquet ss o s :
  o ∈ query parquet ss →
  median_of (group_scores s o (query parquet ss)) (Out.median_score o s).
Proof.
  rewrite query_joined. intros (j & -> & Hj)%list_elem_of_fmap.
  rewrite group_scores_select, select_row_median. apply MEDIAN_median_of.
Qed.

Lemma above_median_of_row parquet ss o s :
  o ∈ query parquet ss →
  Out.above_median o s = CASE_WHEN (sql_ge (Out.score o s) (Out.median_score o s)).
Proof.
  rewrite query_joined. intros (j & -> & Hj)%list_elem_of_fmap.
  apply select_row_above.
Qed.

Lemma median_score_present parquet ss o s x :
  o ∈ query parquet ss → Out.score o s = Some x → is_Some (Out.median_score o s).
Proof.
  rewrite query_joined. intros (j & -> & Hj)%list_elem_of_fmap Hx.
  rewrite select_row_median. unfold median_over. apply (MEDIAN_is_Some _ x).
  destruct (select_row_hits (joined parquet ss) j) as (_ & _ & Hsc & _).
  rewrite Hsc in Hx. rewrite <- Hx.
  apply (list_elem_of_fmap_2 (λ j' : joined_row, Hits.score j'.1 s)).
  unfold partition_by. apply list_elem_of_filter. done.
Qed.

(** ** The left join *)

Lemma length_LEFT_JOIN {A B} (on : A → B → bool) (l : list A) (r : list B) :
  length (LEFT_JOIN on l r)
  = sum_list ((λ a, Nat.max 1 (length (filter (λ b, on a b) r))) <$> l).
Proof.
  unfold LEFT_JOIN. induction l as [|a l IH]; [done|].
  rewrite bind_cons, length_app, fmap_cons, IH.
  change (sum_list (?x :: ?k)) with (x + sum_list k)%nat. f_equal.
  destruct (filter (λ b, on a b) r) as [|b m]; [done|].
  rewrite length_fmap. simpl length. lia.
Qed.

Lemma elem_of_LEFT_JOIN {A B} (on : A → B → bool) (l : list A) (r : list B) a m :
  (a, m) ∈ LEFT_JOIN on l r
  ↔ a ∈ l ∧ match m with
            | None => filter (λ b, on a b) r = []
            | Some b => b ∈ filter (λ b, on a b) r
            end.
Proof.
  unfold LEFT_JOIN. rewrite list_elem_of_bind. split.
  - intros (a' & Hin & Ha').
    destruct (filter (λ b, on a' b) r) as [|b0 ms] eqn:Hf.
    + apply list_elem_of_singleton in Hin. simplify_eq. by rewrite Hf.
    + apply list_elem_of_fmap in Hin as (b & ? & Hb). simplify_eq.
      by rewrite Hf.
  - intros [Ha Hm]. exists a. split; [|done].
    destruct m as [b|].
    + destruct (filter (λ b, on a b) r) as [|b0 ms] eqn:Hf.
      { by apply elem_of_nil in Hm. }
      by apply (list_elem_of_fmap_2 (λ b, (a, Some b))).
    + rewrite Hm. apply list_elem_of_singleton. done.
Qed.

Lemma hits_columns_select rel h m : hits_columns (select_row rel (h, m)) = h.
Proof. by destruct h. Qed.

Lemma passthrough_absent_select rel h :
  passthrough_absent (select_row rel (h, None)).
Proof. repeat split; intros s; simpl; by rewrite col_each. Qed.

Lemma passthrough_of_select rel h r :
  passthrough_of r (select_row rel (h, Some r)).
Proof. repeat split; intros s; simpl; by rewrite col_each. Qed.

Lemma hits_columns_in_hits parquet ss o :
  o ∈ query parquet ss →
  hits_columns o ∈ hits_cte (LIMIT ss (answers_cte parquet)).
Proof.
  rewrite query_joined. intros ([h m] & -> & Hj)%list_elem_of_fmap.
  rewrite hits_columns_select. by apply elem_of_LEFT_JOIN in Hj as [? _].
Qed.

Lemma CASE_WHEN_0_or_1 c : CASE_WHEN c = 0 ∨ CASE_WHEN c = 1.
Proof. unfold CASE_WHEN. destruct (holds c); auto. Qed.

Lemma SUM_nonneg l : Forall (λ x, 0 ≤ x) l → 0 ≤ SUM l.
Proof. induction 1; simpl; lia. Qed.

Lemma hit_0_or_1 s a : hit s a = 0 ∨ hit s a = 1.
Proof. apply CASE_WHEN_0_or_1. Qed.

(** ** The hits of a candidate *)

Lemma ans_list_sentinel r s : ans_list r s = STRING_SPLIT (answers_or_sentinel r s).
Proof. by destruct s. Qed.

Lemma key_list_sentinel r s : key_list r s = STRING_SPLIT (key_or_sentinel r s).
Proof. by destruct s. Qed.

Lemma hits_row_hits r s :
  Hits.hits (hits_row r) s
  = aligned_matches (STRING_SPLIT (answers_or_sentinel r s))
                    (STRING_SPLIT (key_or_sentinel r s)).
Proof.
  simpl. rewrite col_each, hits_of_answers_rows.
  by rewrite ans_list_sentinel, key_list_sentinel.
Qed.

(** A run over the whole table. *)

Lemma output_of_candidate parquet o :
  NoDup (registration_id <$> parquet) →
  o ∈ query parquet None →
  ∃ r, r ∈ parquet
       ∧ o = select_row (unique_rel parquet) (hits_row r, own_match r).
Proof.
  intros Hnd. rewrite query_unique by done. unfold unique_rel at 2.
  rewrite <- list_fmap_compose.
  intros (r & -> & Hr)%list_elem_of_fmap. eauto.
Qed.

Lemma candidate_in_output parquet r :
  NoDup (registration_id <$> parquet) →
  r ∈ parquet →
  select_row (unique_rel parquet) (hits_row r, own_match r)
    ∈ query parquet None.
Proof.
  intros Hnd Hr. rewrite query_unique by done.
  apply list_elem_of_fmap_2. unfold unique_rel.
  by apply (list_elem_of_fmap_2 (λ r, (hits_row r, own_match r))).
Qed.

Lemma hits_of_candidate parquet r o s :
  NoDup (registration_id <$> parquet) →
  r ∈ parquet →
  o ∈ query parquet None →
  Out.registration_id o = registration_id r →
  Out.hits o s
  = aligned_matches (STRING_SPLIT (answers_or_sentinel r s))
                    (STRING_SPLIT (key_or_sentinel r s)).
Proof.
  intros Hnd Hr Ho Hid.
  destruct (output_of_candidate parquet o Hnd Ho) as (r' & Hr' & ->).
  simpl in Hid. assert (r' = r) as ->.
  { by eapply NoDup_fmap_eq. }
  simpl Out.hits. apply hits_row_hits.
Qed.

(** A run with a sample size: the unnested rows that are left are some of
    the unnested rows of the first candidates, so the hits of a candidate
    are a partial sum of its matches. *)

Lemma take_bind_sublist {A B} (f : A → list B) (l : list A) n :
  (∀ x, f x ≠ []) → take n (l ≫= f) `sublist_of` take n l ≫= f.
Proof.
  intros Hf. revert n. induction l as [|x l IH]; intros n.
  { change ([] ≫= f) with (@nil B). by rewrite !take_nil. }
  destruct n as [|n]; [apply sublist_nil_l|].
  rewrite bind_cons, take_app.
  change (take (S n) (x :: l)) with (x :: take n l). rewrite bind_cons.
  apply sublist_app; [apply sublist_take|].
  destruct (f x) as [|b k] eqn:Hfx; [by destruct (Hf x)|].
  change (S n - length (b :: k))%nat with (n - length k)%nat.
  etrans; [apply IH|]. apply bind_sublist.
  replace (n - length k)%nat with (Nat.min (n - length k) n) by lia.
  rewrite <- take_take. apply sublist_take.
Qed.

Lemma LIMIT_answers_cte ss t :
  LIMIT ss (answers_cte t) `sublist_of` answers_cte (LIMIT ss t).
Proof.
  destruct ss as [n|]; [|done].
  apply take_bind_sublist, answers_rows_nonempty.
Qed.

Lemma filter_sublist_mono {A} (P : A → Prop) `{!∀ x, Decision (P x)} l k :
  l `sublist_of` k → filter P l `sublist_of` filter P k.
Proof.
  induction 1 as [|x l k _ IH|x l k _ IH]; [done|..]; rewrite ?filter_cons.
  - case_decide; [by constructor|done].
  - case_decide; [by constructor|done].
Qed.

Lemma SUM_cons x l : SUM (x :: l) = x + SUM l.
Proof. done. Qed.

Lemma SUM_hit_sublist s rows rows' :
  rows `sublist_of` rows' →
  0 ≤ SUM (hit s <$> rows) ≤ SUM (hit s <$> rows').
Proof.
  induction 1 as [|a l k _ IH|a l k _ IH]; [done|..];
    rewrite ?fmap_cons, ?SUM_cons; destruct (hit_0_or_1 s a); lia.
Qed.

Lemma elem_of_hits_cte_LIMIT parquet ss h :
  h ∈ hits_cte (LIMIT ss (answers_cte parquet)) →
  ∃ r, r ∈ LIMIT ss parquet
       ∧ (Hits.registration_id h, Hits.exam_year h, Hits.score h,
          Hits.code_exam h) = candidate_key r
       ∧ ∀ s, Hits.hits h s
              = SUM (hit s <$> filter (λ a, group_of a = candidate_key r)
                                 (LIMIT ss (answers_cte parquet))).
Proof.
  unfold hits_cte.
  intros (g & -> & Hg)%list_elem_of_fmap.
  apply elem_of_remove_dups, list_elem_of_fmap in Hg as (a & -> & Ha).
  pose proof (elem_of_sublist _ _ a Ha (LIMIT_answers_cte ss parquet)) as Ha'.
  apply group_of_answers_cte in Ha' as (r & Hr & Har).
  exists r. split; [done|]. rewrite (group_of_answers_rows r a Har).
  split; [done|]. intros s. simpl. by rewrite col_each.
Qed.

Lemma sample_rows_of_candidate parquet ss r o :
  NoDup (registration_id <$> LIMIT ss parquet) →
  r ∈ LIMIT ss parquet →
  o ∈ query parquet ss →
  Out.registration_id o = registration_id r →
  ∃ rows, rows `sublist_of` answers_rows r
          ∧ ∀ s, Out.hits o s = SUM (hit s <$> rows).
Proof.
  intros Hnd Hr Ho Hid.
  apply hits_columns_in_hits, elem_of_hits_cte_LIMIT in Ho
    as (r' & Hr' & Hkey & Hhits).
  assert (r' = r) as ->.
  { eapply NoDup_fmap_eq; [exact Hnd|done..|].
    rewrite <- Hid. by injection Hkey as <- _ _ _. }
  eexists. split; [|exact Hhits].
  rewrite <- (group_rows_of_candidate (LIMIT ss parquet) r)
    by (by try apply NoDup_candidate_key).
  apply filter_sublist_mono, LIMIT_answers_cte.
Qed.

Lemma hits_of_candidate_bounds parquet ss r o s :
  NoDup (registration_id <$> LIMIT ss parquet) →
  r ∈ LIMIT ss parquet →
  o ∈ query parquet ss →
  Out.registration_id o = registration_id r →
  0 ≤ Out.hits o s
    ≤ aligned_matches (STRING_SPLIT (answers_or_sentinel r s))
                      (STRING_SPLIT (key_or_sentinel r s)).
Proof.
  intros Hnd Hr Ho Hid.
  destruct (sample_rows_of_candidate parquet ss r o Hnd Hr Ho Hid)
    as (rows & Hsub & ->).
  rewrite <- hits_row_hits. simpl. rewrite col_each.
  by apply SUM_hit_sublist.
Qed.

(** Why ids must be unique: rows that agree on every grouped column fall in
    one group, and their hits add up. *)
Remark duplicate_rows_add_up :
  Out.hits <$> query (abcd_table ++ abcd_table) None
  = [PerSubject 6 0 0 0; PerSubject 6 0 0 0].
Proof. by vm_compute. Qed.




(** ** Medians and labels *)

Lemma Qc_of_Z_eq (q : Qc) (z : Z) : this q = inject_Z z → q = Qc_of_Z z.
Proof. intros H. apply Qc_is_canon. rewrite H. reflexivity. Qed.

(** C2 (median per group).  The [median_score] of an output record in
    subject [s] is the median of the scores that are not absent among the
    output records with the same exam year and the same hits in [s]: absent
    for no score, the central order statistic for an odd number of scores,
    the arithmetic mean of the two central ones for an even number.  Two
    candidates of 2017 with ten hits in math and scores 500 and 600 both get
    the median 550. *)
Theorem median_definition :
  (∀ parquet sample_size o s,
     o ∈ query parquet sample_size →
     median_of (group_scores s o (query parquet sample_size))
               (Out.median_score o s))
  ∧ (∀ o, o ∈ query two_scores_table None →
          Out.exam_year o = Some 2017 ∧ Out.hits o math = 10
          ∧ group_scores math o (query two_scores_table None)
            = [Qc_of_Z 500; Qc_of_Z 600]
          ∧ Out.median_score o math = Some (Qc_of_Z 550)).
Proof.
  split; [apply median_score_of_group|].
  intros o Ho.
  assert (Forall (λ o, Out.exam_year o = Some 2017 ∧ Out.hits o math = 10
            ∧ (fmap this (group_scores math o (query two_scores_table None))
               = [inject_Z 500; inject_Z 600])
            ∧ fmap this (Out.median_score o math) = Some (inject_Z 550))
          (query two_scores_table None)) as Hall.
  { apply (bool_decide_unpack _). by vm_compute. }
  rewrite Forall_forall in Hall.
  destruct (Hall o Ho) as (Hy & Hh & Hg & Hm). repeat split; [done..| |].
  - destruct (group_scores math o _) as [|x [|y [|z l]]]; simplify_eq/=.
    f_equal; [|f_equal]; by apply Qc_of_Z_eq.
  - destruct (Out.median_score o math) as [m|]; simplify_eq/=.
    f_equal. by apply Qc_of_Z_eq.
Qed.

Lemma median_definition_witness :
  ∃ o, o ∈ query two_scores_table None
       ∧ median_of (group_scores math o (query two_scores_table None))
                   (Out.median_score o math).
Proof.
  assert (∃ o, o ∈ query two_scores_table None) as [o Ho].
  { destruct (query two_scores_table None) as [|o l] eqn:E.
    - vm_compute in E. discriminate E.
    - exists o. left. }
  exists o. split; [exact Ho|].
  exact (proj1 median_definition two_scores_table None o math Ho).
Defined.

Lemma CASE_WHEN_sql_ge x m :
  CASE_WHEN (sql_ge x m) = 1
  ↔ ∃ a b, x = Some a ∧ m = Some b ∧ (b ≤ a)%Qc.
Proof.
  unfold CASE_WHEN. split.
  - destruct x as [a|], m as [b|]; simpl; try done.
    case_bool_decide; simpl; [eauto|done].
  - intros (a & b & -> & -> & Hle). simpl. by rewrite bool_decide_eq_true_2.
Qed.

(** C3 (above-median label).  For every output record and subject,
    [above_median] is 1 exactly when the score is present, the median is
    present and the score is at least the median; in every other case it is
    0, in particular when the score or the median is absent; a present score
    always has a present median, and a score equal to its median is labelled
    1.  The scenarios of the specification: scores 500 and 600 give labels 0
    and 1 around the median 550; a third score of exactly 550 is labelled 1;
    an absent score is labelled 0. *)
Theorem above_median_labeling :
  (∀ parquet sample_size o s,
     o ∈ query parquet sample_size →
     (Out.above_median o s = 1
      ↔ ∃ x m, Out.score o s = Some x ∧ Out.median_score o s = Some m
               ∧ (m ≤ x)%Qc)
     ∧ (Out.above_median o s ≠ 1 → Out.above_median o s = 0)
     ∧ (Out.score o s = None → Out.above_median o s = 0)
     ∧ (Out.median_score o s = None → Out.above_median o s = 0)
     ∧ (∀ x, Out.score o s = Some x → is_Some (Out.median_score o s))
     ∧ (∀ x, Out.score o s = Some x → Out.median_score o s = Some x →
             Out.above_median o s = 1))
  ∧ (λ o, (this <$> Out.score o math, this <$> Out.median_score o math,
           Out.above_median o math)) <$> query two_scores_table None
    = [(Some (inject_Z 500), Some (inject_Z 550), 0);
       (Some (inject_Z 600), Some (inject_Z 550), 1)]
  ∧ (λ o, (this <$> Out.score o math, this <$> Out.median_score o math,
           Out.above_median o math)) <$> query three_scores_table None
    = [(Some (inject_Z 500), Some (inject_Z 550), 0);
       (Some (inject_Z 600), Some (inject_Z 550), 1);
       (Some (inject_Z 550), Some (inject_Z 550), 1)]
  ∧ (λ o, (this <$> Out.score o math, this <$> Out.median_score o math,
           Out.above_median o math)) <$> query with_absent_score_table None
    = [(Some (inject_Z 500), Some (inject_Z 550), 0);
       (Some (inject_Z 600), Some (inject_Z 550), 1);
       (None, Some (inject_Z 550), 0)].
Proof.
  split; [|repeat split; by vm_compute].
  intros parquet ss o s Ho.
  pose proof (above_median_of_row parquet ss o s Ho) as Habove.
  rewrite Habove. repeat split.
  - by intros ?%CASE_WHEN_sql_ge.
  - by intros ?%CASE_WHEN_sql_ge.
  - intros Hne. by destruct (CASE_WHEN_0_or_1 (sql_ge (Out.score o s) (Out.median_score o s))).
  - by intros ->.
  - intros ->. by destruct (Out.score o s).
  - intros x Hx. by eapply median_score_present.
  - intros x Hx Hm. apply CASE_WHEN_sql_ge. eauto 10.
Qed.

Lemma above_median_labeling_witness :
  ∃ o, o ∈ query two_scores_table None
       ∧ (Out.median_score o math = None → Out.above_median o math = 0).
Proof.
  assert (∃ o, o ∈ query two_scores_table None) as [o Ho].
  { destruct (query two_scores_table None) as [|o l] eqn:E.
    - vm_compute in E. discriminate E.
    - exists o. left. }
  exists o. split; [exact Ho|].
  apply (proj1 above_median_labeling two_scores_table None o math Ho).
Defined.

(** C9 (the label is total).  For every output record and subject,
    [above_median] is 0 or 1, and it is 0 whenever the comparison of the score
    with the median is not defined (one of them is absent). *)
Theorem above_median_total parquet sample_size o s :
  o ∈ query parquet sample_size →
  (Out.above_median o s = 0 ∨ Out.above_median o s = 1)
  ∧ (sql_ge (Out.score o s) (Out.median_score o s) = None →
     Out.above_median o s = 0).
Proof.
  intros Ho. rewrite (above_median_of_row parquet sample_size o s Ho).
  split; [apply CASE_WHEN_0_or_1|]. by intros ->.
Qed.

Lemma above_median_total_witness :
  ∃ o, o ∈ query with_absent_score_table None
       ∧ Out.score o math = None ∧ Out.above_median o math = 0.
Proof.
  assert (∃ o, o ∈ query with_absent_score_table None
               ∧ Out.score o math = None) as (o & Ho & Hsc).
  { apply Exists_exists, (bool_decide_unpack _). by vm_compute. }
  exists o. split; [exact Ho|]. split; [exact Hsc|].
  apply (above_median_total with_absent_score_table None o math Ho).
  by rewrite Hsc.
Defined.

(** ** Sentinels *)

Lemma get_is_Some s i : (i < String.length s)%nat → is_Some (String.get i s).
Proof.
  revert i. induction s as [|c s IH]; intros i Hi; simpl in *; [lia|].
  destruct i as [|i]; [by eexists|]. apply IH. lia.
Qed.

Lemma REPEAT_S c n :
  REPEAT (String c "") (S n) = String c (REPEAT (String c "") n).
Proof. reflexivity. Qed.

Lemma length_REPEAT c n : String.length (REPEAT (String c "") n) = n.
Proof. induction n as [|n IH]; [done|]. rewrite REPEAT_S. simpl. congruence. Qed.

Lemma all_chars_REPEAT c n : all_chars c (REPEAT (String c "") n).
Proof.
  induction n as [|n IH]; intros i x; [done|]. rewrite REPEAT_S. simpl.
  destruct i as [|i]; [congruence|]. apply IH.
Qed.

Lemma REPEAT_nonempty c n : (0 < n)%nat → REPEAT (String c "") n ≠ "".
Proof. destruct n; [lia|]. by rewrite REPEAT_S. Qed.

Lemma no_aligned_matches (A K : ascii → Prop) a k :
  over A a → over K k → (∀ c, A c → K c → False) →
  ¬ (a = "" ∧ k = "") →
  aligned_matches (STRING_SPLIT a) (STRING_SPLIT k) = 0.
Proof.
  intros Ha Hk Hdisj Hne. rewrite aligned_matches_STRING_SPLIT by done.
  unfold matching_positions. rewrite filter_none; [done|].
  intros i [_ Hi]%elem_of_seq Heq.
  destruct (get_is_Some a i) as [c Hc]; [lia|].
  rewrite Hc in Heq. symmetry in Heq. eauto.
Qed.

Lemma subject_length_pos s : (0 < subject_length s)%nat.
Proof. destruct s; simpl; lia. Qed.

(** C4 (sentinels for missing strings).  A missing answers string is
    replaced by [subject_length s] times ['#'] and a missing key by as many
    ['.'], two different characters.  For any alphabet of valid characters
    that contains neither sentinel, any blank character other than ['.'], and
    unique ids: a candidate whose answers are missing, or are a non-empty
    string of blanks only, has 0 hits against a key that is missing or made of
    valid characters other than the blank; so has a candidate with valid
    answers against a missing key.  [compute_hits] returns on every processed
    table, missing strings or not. *)
Theorem sentinel_substitution :
  (∀ r s,
     (answers r s = None →
      answers_or_sentinel r s = REPEAT "#" (subject_length s))
     ∧ (key r s = None →
        key_or_sentinel r s = REPEAT "." (subject_length s))
     ∧ (∀ a, answers r s = Some a → answers_or_sentinel r s = a)
     ∧ (∀ k, key r s = Some k → key_or_sentinel r s = k)
     ∧ ans_list r s = STRING_SPLIT (answers_or_sentinel r s)
     ∧ key_list r s = STRING_SPLIT (key_or_sentinel r s))
  ∧ (∀ s,
       String.length (REPEAT "#" (subject_length s)) = subject_length s
       ∧ all_chars "#" (REPEAT "#" (subject_length s))
       ∧ String.length (REPEAT "." (subject_length s)) = subject_length s
       ∧ all_chars "." (REPEAT "." (subject_length s)))
  ∧ "#"%char ≠ "."%char
  ∧ (∀ (alphabet : ascii → Prop) (blank : ascii) parquet sample_size r s o,
       ¬ alphabet "#"%char → blank ≠ "."%char →
       NoDup (registration_id <$> LIMIT sample_size parquet) →
       r ∈ LIMIT sample_size parquet →
       o ∈ query parquet sample_size →
       Out.registration_id o = registration_id r →
       (answers r s = None
        ∨ ∃ a, answers r s = Some a ∧ a ≠ "" ∧ all_chars blank a) →
       (key r s = None
        ∨ ∃ k, key r s = Some k ∧ over (λ c, alphabet c ∧ c ≠ blank) k) →
       Out.hits o s = 0)
  ∧ (∀ (alphabet : ascii → Prop) parquet sample_size r s o,
       ¬ alphabet "."%char →
       NoDup (registration_id <$> LIMIT sample_size parquet) →
       r ∈ LIMIT sample_size parquet →
       o ∈ query parquet sample_size →
       Out.registration_id o = registration_id r →
       (∃ a, answers r s = Some a ∧ over alphabet a) →
       key r s = None →
       Out.hits o s = 0)
  ∧ (∀ fs parquet_path out_path sample_size rows,
       fs !! parquet_path = Some (enem_parquet rows) →
       (compute_hits parquet_path out_path sample_size fs).1
       = Return out_path).
Proof.
  split; [|split; [|split; [done|split; [|split]]]].
  - intros r s. unfold answers_or_sentinel, key_or_sentinel.
    repeat split; try (by intros ->); try (by intros ? ->).
    + apply ans_list_sentinel.
    + apply key_list_sentinel.
  - intros s. repeat split.
    + apply length_REPEAT.
    + apply all_chars_REPEAT.
    + apply length_REPEAT.
    + apply all_chars_REPEAT.
  - intros alphabet blank parquet ss r s o Hsharp Hblank Hnd Hr Ho Hid Hans Hkey.
    pose proof (hits_of_candidate_bounds parquet ss r o s Hnd Hr Ho Hid) as Hb.
    cut (aligned_matches (STRING_SPLIT (answers_or_sentinel r s))
           (STRING_SPLIT (key_or_sentinel r s)) = 0); [lia|]. clear Hb.
    pose proof (subject_length_pos s) as Hpos.
    unfold answers_or_sentinel, key_or_sentinel.
    destruct Hans as [->|(a & -> & Hne & Ha)],
             Hkey as [->|(k & -> & Hk)]; simpl.
    + apply (no_aligned_matches (λ x, x = "#"%char) (λ x, x = "."%char));
        [apply all_chars_REPEAT..| |].
      * by intros c -> ?.
      * intros [Hnil _]. by apply REPEAT_nonempty in Hnil.
    + apply (no_aligned_matches (λ x, x = "#"%char)
               (λ c, alphabet c ∧ c ≠ blank));
        [apply all_chars_REPEAT|done| |].
      * by intros c -> [? _].
      * intros [Hnil _]. by apply REPEAT_nonempty in Hnil.
    + apply (no_aligned_matches (λ x, x = blank) (λ x, x = "."%char));
        [done|apply all_chars_REPEAT| |by intros [? _]].
      by intros c -> ?.
    + apply (no_aligned_matches (λ x, x = blank)
               (λ c, alphabet c ∧ c ≠ blank)); [done|done| |by intros [? _]].
      by intros c -> [_ ?].
  - intros alphabet parquet ss r s o Hdot Hnd Hr Ho Hid (a & Ha & Hover) Hk.
    pose proof (hits_of_candidate_bounds parquet ss r o s Hnd Hr Ho Hid) as Hb.
    cut (aligned_matches (STRING_SPLIT (answers_or_sentinel r s))
           (STRING_SPLIT (key_or_sentinel r s)) = 0); [lia|]. clear Hb.
    unfold answers_or_sentinel, key_or_sentinel. rewrite Ha, Hk. simpl.
    apply (no_aligned_matches alphabet (λ x, x = "."%char));
      [done|apply all_chars_REPEAT| |].
    + by intros c ? ->.
    + intros [_ Hnil]. by apply (REPEAT_nonempty "." (subject_length s)
        (subject_length_pos s)).
  - intros fs parquet_path out_path ss rows Hfs. unfold compute_hits.
    by rewrite Hfs.
Qed.

Lemma sentinel_substitution_witness :
  ∃ o, o ∈ query absent_answers_table None ∧ Out.hits o science = 0.
Proof.
  pose (r := sample 1 2017 absent (only science (REPEAT "A" 45)) absent).
  assert (NoDup (registration_id <$> LIMIT None absent_answers_table)) as Hnd.
  { repeat constructor. set_solver. }
  assert (r ∈ LIMIT None absent_answers_table) as Hr by left.
  exists (select_row (unique_rel (LIMIT None absent_answers_table))
            (hits_row r, own_match r)).
  assert (select_row (unique_rel (LIMIT None absent_answers_table))
            (hits_row r, own_match r) ∈ query absent_answers_table None) as Ho.
  { by apply candidate_in_output. }
  split; [exact Ho|].
  destruct sentinel_substitution as (_ & _ & _ & Hzero & _).
  apply (Hzero (λ c, c = "A"%char) "#"%char absent_answers_table None r
           science _).
  - discriminate.
  - discriminate.
  - exact Hnd.
  - exact Hr.
  - exact Ho.
  - reflexivity.
  - left. reflexivity.
  - right. exists (REPEAT "A" 45). split; [reflexivity|].
    intros i x Hx. apply all_chars_REPEAT in Hx. subst x.
    split; [reflexivity|discriminate].
Defined.

(** ** The join and the candidates *)




(** ** Bounds on the hits *)

Lemma hits_cte_nonneg answers h s : h ∈ hits_cte answers → 0 ≤ Hits.hits h s.
Proof.
  unfold hits_cte. intros (g & -> & _)%list_elem_of_fmap. simpl.
  rewrite col_each. apply SUM_nonneg, Forall_fmap, Forall_forall.
  intros a _. simpl. destruct (hit_0_or_1 s a); lia.
Qed.

Lemma aligned_matches_bounds la lk :
  0 ≤ aligned_matches la lk ≤ Z.of_nat (Nat.min (length la) (length lk)).
Proof.
  revert lk. induction la as [|a la IH]; intros [|k lk]; simpl; try lia.
  specialize (IH lk). case_decide; lia.
Qed.

Lemma length_matching_positions a k L :
  (length (matching_positions a k L) ≤ L)%nat.
Proof.
  unfold matching_positions.
  etrans; [apply length_filter|]. by rewrite length_seq.
Qed.

Lemma length_ans_list_absent r s :
  answers r s = None → length (ans_list r s) = subject_length s.
Proof.
  intros Ha. rewrite ans_list_sentinel, length_STRING_SPLIT.
  unfold answers_or_sentinel. rewrite Ha. simpl. rewrite length_REPEAT.
  pose proof (subject_length_pos s). lia.
Qed.

Lemma length_key_list_absent r s :
  key r s = None → length (key_list r s) = subject_length s.
Proof.
  intros Hk. rewrite key_list_sentinel, length_STRING_SPLIT.
  unfold key_or_sentinel. rewrite Hk. simpl. rewrite length_REPEAT.
  pose proof (subject_length_pos s). lia.
Qed.

Lemma length_ans_list_present r s a :
  answers r s = Some a → length (ans_list r s) = Nat.max 1 (String.length a).
Proof.
  intros Ha. rewrite ans_list_sentinel, length_STRING_SPLIT.
  unfold answers_or_sentinel. by rewrite Ha.
Qed.

Lemma length_key_list_present r s k :
  key r s = Some k → length (key_list r s) = Nat.max 1 (String.length k).
Proof.
  intros Hk. rewrite key_list_sentinel, length_STRING_SPLIT.
  unfold key_or_sentinel. by rewrite Hk.
Qed.

(** C6 (bound on the hits).  Hits are never negative.  With
    unique registration ids the hits of a candidate in a subject are at most
    the length of the shorter of the two unnested lists, hence at most
    [subject_length s] as soon as the answers or the key of that subject is
    absent or has at most [subject_length s] characters. *)
Theorem hits_bound :
  (∀ parquet sample_size o s,
     o ∈ query parquet sample_size → 0 ≤ Out.hits o s)
  ∧ (∀ parquet sample_size r s o,
       NoDup (registration_id <$> LIMIT sample_size parquet) →
       r ∈ LIMIT sample_size parquet →
       o ∈ query parquet sample_size →
       Out.registration_id o = registration_id r →
       Out.hits o s
       ≤ Z.of_nat (Nat.min (length (ans_list r s)) (length (key_list r s)))
       ∧ ((answers r s = None
           ∨ (∃ a, answers r s = Some a
                   ∧ (String.length a ≤ subject_length s)%nat)
           ∨ key r s = None
           ∨ (∃ k, key r s = Some k
                   ∧ (String.length k ≤ subject_length s)%nat)) →
          Out.hits o s ≤ Z.of_nat (subject_length s))).
Proof.
  split.
  - intros parquet ss o s Ho.
    apply (hits_cte_nonneg (LIMIT ss (answers_cte parquet)) (hits_columns o) s).
    by apply hits_columns_in_hits.
  - intros parquet ss r s o Hnd Hr Ho Hid.
    pose proof (hits_of_candidate_bounds parquet ss r o s Hnd Hr Ho Hid) as Hle.
    rewrite <- ans_list_sentinel, <- key_list_sentinel in Hle.
    pose proof (aligned_matches_bounds (ans_list r s) (key_list r s)) as Hb.
    split; [lia|].
    pose proof (subject_length_pos s) as Hpos.
    intros [Ha|[(a & Ha & Hla)|[Hk|(k & Hk & Hlk)]]].
    + rewrite (length_ans_list_absent r s Ha) in Hb. lia.
    + rewrite (length_ans_list_present r s a Ha) in Hb. lia.
    + rewrite (length_key_list_absent r s Hk) in Hb. lia.
    + rewrite (length_key_list_present r s k Hk) in Hb. lia.
Qed.

Lemma hits_bound_witness :
  ∃ o, o ∈ query abcd_table None
       ∧ Out.hits o science ≤ Z.of_nat (subject_length science).
Proof.
  pose (r := sample 1 2017 (only science "ABCD") (only science "ABXD") absent).
  assert (NoDup (registration_id <$> LIMIT None abcd_table)) as Hnd.
  { repeat constructor. set_solver. }
  assert (r ∈ LIMIT None abcd_table) as Hr by left.
  exists (select_row (unique_rel (LIMIT None abcd_table)) (hits_row r, own_match r)).
  assert (select_row (unique_rel (LIMIT None abcd_table)) (hits_row r, own_match r)
            ∈ query abcd_table None) as Ho.
  { by apply candidate_in_output. }
  split; [exact Ho|].
  apply (proj2 hits_bound abcd_table None r science _ Hnd Hr Ho eq_refl).
  right. left. exists "ABCD". split; [reflexivity|]. simpl. lia.
Defined.

Lemma hits_bound_counterexample :
  ∃ o, o ∈ query overlong_table None
       ∧ Out.hits o science = 46
       ∧ ¬ (0 ≤ Out.hits o science ≤ Z.of_nat (subject_length science)).
Proof.
  apply Exists_exists, (bool_decide_unpack _). by vm_compute.
Qed.

(** C7 (no truncation or padding).  An absent string is
    replaced by exactly [subject_length s] sentinel characters and a present
    string is compared as it is.  In a run over the whole table with unique
    registration ids, the hits of a candidate are the number of matching
    positions among the first [min (length answers) (length key)] positions
    of the two strings, whatever their lengths, unless both strings are
    empty; two empty strings count as one hit, as on the table whose answers
    and key in science are both empty.  Answers and key of 46 equal
    characters give 46 hits in science. *)
Theorem no_truncation_or_padding :
  (∀ r s,
     (answers r s = None →
      String.length (answers_or_sentinel r s) = subject_length s)
     ∧ (key r s = None →
        String.length (key_or_sentinel r s) = subject_length s)
     ∧ (∀ a, answers r s = Some a → answers_or_sentinel r s = a)
     ∧ (∀ k, key r s = Some k → key_or_sentinel r s = k))
  ∧ (∀ parquet r s o,
       NoDup (registration_id <$> parquet) →
       r ∈ parquet →
       o ∈ query parquet None →
       Out.registration_id o = registration_id r →
       (¬ (answers_or_sentinel r s = "" ∧ key_or_sentinel r s = "") →
        Out.hits o s
        = Z.of_nat (length (matching_positions
            (answers_or_sentinel r s) (key_or_sentinel r s)
            (Nat.min (String.length (answers_or_sentinel r s))
                     (String.length (key_or_sentinel r s))))))
       ∧ (answers_or_sentinel r s = "" ∧ key_or_sentinel r s = "" →
          Out.hits o s = 1))
  ∧ Out.hits <$> query empty_strings_table None = [PerSubject 1 0 0 0]
  ∧ Out.hits <$> query overlong_table None = [PerSubject 46 0 0 0].
Proof.
  split; [|split; [|split; by vm_compute]].
  - intros r s. unfold answers_or_sentinel, key_or_sentinel.
    repeat split; try (intros ->; simpl; apply length_REPEAT);
      by intros ? ->.
  - intros parquet r s o Hnd Hr Ho Hid.
    rewrite (hits_of_candidate parquet r o s) by done. split.
    + intros Hne. by apply aligned_matches_STRING_SPLIT.
    + intros [Ha Hk]. rewrite Ha, Hk. apply aligned_matches_both_empty.
Qed.

Lemma no_truncation_or_padding_witness :
  ∃ o, o ∈ query overlong_table None ∧ Out.hits o science = 46.
Proof.
  pose (r := sample 1 2017 (only science (REPEAT "A" 46))
                (only science (REPEAT "A" 46)) absent).
  assert (NoDup (registration_id <$> LIMIT None overlong_table)) as Hnd.
  { repeat constructor. set_solver. }
  assert (r ∈ LIMIT None overlong_table) as Hr by left.
  exists (select_row (unique_rel (LIMIT None overlong_table)) (hits_row r, own_match r)).
  assert (select_row (unique_rel (LIMIT None overlong_table)) (hits_row r, own_match r)
            ∈ query overlong_table None) as Ho.
  { by apply candidate_in_output. }
  split; [exact Ho|].
  destruct no_truncation_or_padding as (_ & Hhits & _).
  rewrite (proj1 (Hhits overlong_table r science _ Hnd Hr Ho eq_refl)).
  - reflexivity.
  - intros [Hnil _]. discriminate Hnil.
Defined.

Lemma no_truncation_or_padding_counterexample :
  ∃ o, o ∈ query overlong_table None
       ∧ Out.hits o science = 46
       ∧ ∀ a k : string,
           Out.hits o science
           ≠ Z.of_nat (length (matching_positions a k (subject_length science))).
Proof.
  assert (∃ o, o ∈ query overlong_table None ∧ Out.hits o science = 46)
    as (o & Ho & Hhits).
  { apply Exists_exists, (bool_decide_unpack _). by vm_compute. }
  exists o. split; [done|]. split; [done|]. intros a k Heq.
  pose proof (length_matching_positions a k (subject_length science)) as Hle.
  rewrite Hhits in Heq. unfold subject_length in Hle, Heq. lia.
Qed.

(** ** Runs of [compute_hits] on a file system *)

Lemma compute_hits_run fs parquet_path out_path ss rows :
  fs !! parquet_path = Some (enem_parquet rows) →
  compute_hits parquet_path out_path ss fs
  = (Return out_path, <[out_path := hits_parquet (query rows ss)]> fs).
Proof. intros Hfs. unfold compute_hits. by rewrite Hfs. Qed.

(** ** The presence filter of [build] *)

Lemma holds_sql_and a b : holds (sql_and a b) ↔ holds a ∧ holds b.
Proof. destruct a as [[]|], b as [[]|]; simpl; intuition. Qed.

Lemma holds_sql_eq `{EqDecision A} (x : option A) (v : A) :
  holds (sql_eq x (Some v)) ↔ x = Some v.
Proof.
  destruct x as [a|]; simpl; [|done].
  case_bool_decide; simpl; split; intros H'; try done; congruence.
Qed.

Lemma present_in_all_spec {C} (r : candidate C) :
  present_in_all r ↔ ∀ s, presence r s = Some 1.
Proof.
  unfold present_in_all. rewrite !holds_sql_and, !holds_sql_eq. split.
  - intros [[[? ?] ?] ?] s. by destruct s.
  - intros H. repeat split; apply H.
Qed.

(** C10 (presence filter upstream).  When [build] returns, the processed
    file holds exactly the transformed rows whose four presence flags are 1:
    every stored row has flag 1 in every subject, a transformed row with
    another or a missing flag in some subject is not stored, and
    [compute_hits] with its default paths then runs the query on these rows
    only. *)
Theorem upstream_presence_filter fs fs' :
  build fs = (Return OUT_PATH, fs') →
  ∃ csv df rows,
    fs !! CSV_PATH = Some (csv_file csv)
    ∧ _transform csv = Return df
    ∧ rows = filter (λ r, present_in_all r) df
    ∧ fs' !! SOURCE_PARQUET = Some (enem_parquet rows)
    ∧ (∀ r, r ∈ rows → ∀ s, presence r s = Some 1)
    ∧ (∀ r s, r ∈ df → presence r s ≠ Some 1 → r ∉ rows)
    ∧ (∀ r, r ∈ df → (∀ s, presence r s = Some 1) → r ∈ rows)
    ∧ ∀ sample_size,
        compute_hits SOURCE_PARQUET HITS_PARQUET sample_size fs'
        = (Return HITS_PARQUET,
           <[HITS_PARQUET := hits_parquet (query rows sample_size)]> fs').
Proof.
  unfold build. intros Hbuild.
  destruct (fs !! CSV_PATH) as [[csv| |]|] eqn:Hcsv; try done.
  destruct (_transform csv) as [df|e] eqn:Hdf; [|done].
  injection Hbuild as <-.
  exists csv, df, (filter (λ r, present_in_all r) df).
  assert ((<[OUT_PATH := enem_parquet (filter (λ r, present_in_all r) df)]> fs)
            !! SOURCE_PARQUET
          = Some (enem_parquet (filter (λ r, present_in_all r) df))) as Hout.
  { apply lookup_insert_eq. }
  repeat split; try done.
  - intros r [Hp _]%list_elem_of_filter. by apply present_in_all_spec.
  - intros r s _ Hs [Hp _]%list_elem_of_filter.
    apply Hs. by apply present_in_all_spec.
  - intros r Hr Hp. apply list_elem_of_filter. split; [|done].
    by apply present_in_all_spec.
  - intros ss. by apply compute_hits_run.
Qed.

Lemma upstream_presence_filter_witness :
  ∃ rows, (build raw_fs).2 !! SOURCE_PARQUET = Some (enem_parquet rows)
          ∧ length rows = 1%nat
          ∧ ∀ r, r ∈ rows → ∀ s, presence r s = Some 1.
Proof.
  destruct (upstream_presence_filter raw_fs (build raw_fs).2)
    as (csv & df & rows & Hcsv & Hdf & Hrows & Hout & Hpres & _).
  - assert ((build raw_fs).1 = Return OUT_PATH) as H1 by (by vm_compute).
    destruct (build raw_fs) as [res fs']. simpl in *. by rewrite H1.
  - exists rows. split; [exact Hout|]. split; [|exact Hpres].
    assert (raw_fs !! CSV_PATH = Some (csv_file csv_table)) as Hraw
      by reflexivity.
    rewrite Hraw in Hcsv. injection Hcsv as <-.
    rewrite Hrows.
    assert (length <$> (match _transform csv_table with
                        | Return df => Some (filter (λ r, present_in_all r) df)
                        | Raise _ => None
                        end) = Some 1%nat) as Hlen by (by vm_compute).
    rewrite Hdf in Hlen. by injection Hlen.
Defined.

(** * Further properties of the query *)

(** ** Groups in general *)

Lemma filter_bind_block {A B} (P : B → Prop) `{!∀ x, Decision (P x)}
    (Q : A → Prop) `{!∀ x, Decision (Q x)} (f : A → list B) (l : list A) :
  (∀ r a, a ∈ f r → (P a ↔ Q r)) →
  filter P (l ≫= f) = filter Q l ≫= f.
Proof.
  intros HPQ. induction l as [|r l IH]; [done|].
  rewrite bind_cons, filter_app, IH, filter_cons.
  destruct (decide (Q r)) as [HQ|HQ].
  - rewrite bind_cons. f_equal. apply filter_all.
    intros a Ha. by apply (HPQ r a Ha).
  - rewrite filter_none; [done|]. intros a Ha HP. by apply HQ, (HPQ r a Ha).
Qed.

Lemma SUM_app l1 l2 : SUM (l1 ++ l2) = SUM l1 + SUM l2.
Proof. induction l1 as [|x l1 IH]; simpl; lia. Qed.

Lemma SUM_bind {A B} (g : B → Z) (f : A → list B) (l : list A) :
  SUM (g <$> (l ≫= f)) = SUM ((λ r, SUM (g <$> f r)) <$> l).
Proof.
  induction l as [|r l IH]; [done|].
  rewrite bind_cons, fmap_app, SUM_app, IH. done.
Qed.

Lemma group_rows_in_general t g :
  filter (λ a, group_of a = g) (answers_cte t)
  = filter (λ r, candidate_key r = g) t ≫= answers_rows.
Proof.
  unfold answers_cte. apply filter_bind_block.
  intros r a Ha. by rewrite (group_of_answers_rows r a Ha).
Qed.

Lemma elem_of_hits_cte t h :
  h ∈ hits_cte (answers_cte t) →
  ∃ r, r ∈ t
       ∧ (Hits.registration_id h, Hits.exam_year h, Hits.score h,
          Hits.code_exam h) = candidate_key r
       ∧ ∀ s, Hits.hits h s
              = SUM ((λ r', aligned_matches (ans_list r' s) (key_list r' s))
                       <$> filter (λ r', candidate_key r' = candidate_key r) t).
Proof.
  unfold hits_cte.
  intros (g & -> & Hg)%list_elem_of_fmap.
  apply elem_of_remove_dups, list_elem_of_fmap in Hg as (a & -> & Ha).
  apply group_of_answers_cte in Ha as (r & Hr & Ha).
  exists r. split; [done|]. rewrite (group_of_answers_rows r a Ha).
  split; [done|]. intros s. simpl. rewrite col_each.
  rewrite group_rows_in_general, SUM_bind.
  f_equal. apply list_fmap_ext. intros _ r' _. apply hits_of_answers_rows.
Qed.

Lemma candidate_in_hits_cte t r :
  r ∈ t →
  ∃ h, h ∈ hits_cte (answers_cte t)
       ∧ (Hits.registration_id h, Hits.exam_year h, Hits.score h,
          Hits.code_exam h) = candidate_key r.
Proof.
  intros Hr. unfold hits_cte.
  assert (candidate_key r ∈ remove_dups (group_of <$> answers_cte t)) as Hk.
  { apply elem_of_remove_dups.
    destruct (answers_rows r) as [|a l] eqn:Hrows.
    { by destruct (answers_rows_nonempty r). }
    assert (a ∈ answers_rows r) as Ha by (rewrite Hrows; left).
    rewrite <- (group_of_answers_rows r a Ha).
    apply list_elem_of_fmap_2. unfold answers_cte.
    apply list_elem_of_bind. eauto. }
  eexists. split; [by apply list_elem_of_fmap_2|]. done.
Qed.

Lemma out_key_hits_columns o :
  out_key o
  = (Hits.registration_id (hits_columns o), Hits.exam_year (hits_columns o),
     Hits.score (hits_columns o), Hits.code_exam (hits_columns o)).
Proof. done. Qed.

(** X1 (hits add up over a group).  In a run over the whole table, every
    output record stems from a non-empty group of source rows, the rows with
    its registration id, exam year, scores and exam codes, and its hits in a
    subject are the sum, over the rows of that group, of the positions where
    the unnested answers and key of the row agree. *)
Theorem hits_add_up_over_group parquet o s :
  o ∈ query parquet None →
  group_members o parquet ≠ []
  ∧ Out.hits o s
    = SUM ((λ r, aligned_matches (ans_list r s) (key_list r s))
             <$> group_members o parquet).
Proof.
  intros Ho. apply hits_columns_in_hits, elem_of_hits_cte in Ho
    as (r & Hr & Hkey & Hhits).
  unfold group_members. rewrite out_key_hits_columns, Hkey. split.
  - intros Hnil. eapply (filter_nil_not_elem_of _ _ r); [exact Hnil|done|done].
  - apply (Hhits s).
Qed.

Lemma hits_add_up_over_group_witness :
  Out.hits <$> query (abcd_table ++ abcd_table) None
  = [PerSubject 6 0 0 0; PerSubject 6 0 0 0]
  ∧ ∀ o, o ∈ query (abcd_table ++ abcd_table) None →
         length (group_members o (abcd_table ++ abcd_table)) = 2%nat
         ∧ Out.hits o science = 3 + 3.
Proof.
  split; [by vm_compute|]. intros o Ho.
  assert (group_members o (abcd_table ++ abcd_table) = abcd_table ++ abcd_table)
    as Hg.
  { revert o Ho. apply Forall_forall, (bool_decide_unpack _). by vm_compute. }
  destruct (hits_add_up_over_group (abcd_table ++ abcd_table) o science Ho)
    as [_ Hsum].
  rewrite Hg in Hsum.
  split; [by rewrite Hg|]. rewrite Hsum. reflexivity.
Defined.

(** ** Every candidate is kept, none is invented *)

Lemma out_key_select rel h m :
  out_key (select_row rel (h, m))
  = (Hits.registration_id h, Hits.exam_year h, Hits.score h, Hits.code_exam h).
Proof. done. Qed.

Lemma elem_of_query parquet ss o :
  o ∈ query parquet ss ↔
  ∃ h m, o = select_row (joined parquet ss) (h, m)
         ∧ h ∈ hits_cte (LIMIT ss (answers_cte parquet))
         ∧ match m with
           | None => matches h (LIMIT ss parquet) = []
           | Some r => r ∈ matches h (LIMIT ss parquet)
           end.
Proof.
  rewrite query_joined, list_elem_of_fmap. unfold joined at 2. split.
  - intros ([h m] & -> & Hj). apply elem_of_LEFT_JOIN in Hj. eauto.
  - intros (h & m & -> & Hj). exists (h, m). split; [done|].
    by apply elem_of_LEFT_JOIN.
Qed.

Lemma candidate_has_record parquet r :
  r ∈ parquet →
  ∃ o, o ∈ query parquet None ∧ out_key o = candidate_key r.
Proof.
  intros Hr. destruct (candidate_in_hits_cte parquet r Hr) as (h & Hh & Hkey).
  destruct (matches h parquet) as [|r' ms] eqn:Hm.
  - exists (select_row (joined parquet None) (h, None)).
    split; [|by rewrite out_key_select].
    apply elem_of_query. exists h, None. done.
  - exists (select_row (joined parquet None) (h, Some r')).
    split; [|by rewrite out_key_select].
    apply elem_of_query. exists h, (Some r'). repeat split; [done|].
    unfold LIMIT. rewrite Hm. left.
Qed.

(** X2 (candidates are kept and none is invented).  In a run over the
    whole table every source row has an output record with its grouped
    columns.  Whatever the sample size, every output record has the grouped
    columns of a scanned source row; an output record whose registration id
    and exam year are present carries, in the columns joined from the source,
    the values of a scanned source row with that id and year; when its id or
    its year is null, all those columns are null. *)
Theorem candidates_kept_not_invented parquet sample_size :
  (∀ r, r ∈ parquet →
        ∃ o, o ∈ query parquet None ∧ out_key o = candidate_key r)
  ∧ (∀ o, o ∈ query parquet sample_size →
          ∃ r, r ∈ LIMIT sample_size parquet ∧ candidate_key r = out_key o)
  ∧ (∀ o, o ∈ query parquet sample_size →
          is_Some (Out.registration_id o) → is_Some (Out.exam_year o) →
          ∃ r, r ∈ LIMIT sample_size parquet
               ∧ registration_id r = Out.registration_id o
               ∧ exam_year r = Out.exam_year o
               ∧ passthrough_of r o)
  ∧ (∀ o, o ∈ query parquet sample_size →
          Out.registration_id o = None ∨ Out.exam_year o = None →
          passthrough_absent o).
Proof.
  set (t := LIMIT sample_size parquet). split; [|split; [|split]].
  - apply candidate_has_record.
  - intros o Ho. apply hits_columns_in_hits, elem_of_hits_cte_LIMIT in Ho
      as (r & Hr & Hkey & _).
    exists r. split; [done|]. by rewrite out_key_hits_columns.
  - intros o (h & m & -> & Hh & Hm)%elem_of_query [i Hi] [y Hy].
    simpl in Hi, Hy. destruct m as [r|].
    + exists r. apply list_elem_of_filter in Hm as [Hon Hr].
      apply join_on_spec in Hon as (i' & y' & Hi1 & Hi2 & Hy1 & Hy2).
      split; [done|]. simpl.
      split; [congruence|]. split; [congruence|apply passthrough_of_select].
    + apply elem_of_hits_cte_LIMIT in Hh as (r & Hr & Hkey & _).
      exfalso. eapply (filter_nil_not_elem_of _ _ r); [exact Hm| |exact Hr].
      apply join_on_spec. exists i, y. unfold candidate_key in Hkey.
      repeat split; congruence.
  - intros o (h & m & -> & Hh & Hm)%elem_of_query Hnull. destruct m as [r|].
    + apply list_elem_of_filter in Hm as [Hon _].
      apply join_on_spec in Hon as (i' & y' & Hi1 & _ & Hy1 & _).
      simpl in Hnull. destruct Hnull; congruence.
    + apply passthrough_absent_select.
Qed.

Lemma candidates_kept_not_invented_witness :
  (∃ o, o ∈ query duplicate_id_table None
        ∧ Out.registration_id o = Some 7 ∧ Out.exam_year o = Some 2017)
  ∧ ∀ o, o ∈ query no_id_table None → passthrough_absent o.
Proof.
  destruct (candidates_kept_not_invented duplicate_id_table None)
    as (Hkept & _).
  destruct (candidates_kept_not_invented no_id_table None)
    as (_ & _ & _ & Habsent).
  split.
  - destruct (Hkept (sample 7 2017 absent absent (only math (Qc_of_Z 500))))
      as (o & Ho & Hkey); [left|].
    exists o. split; [exact Ho|]. injection Hkey as Hid Hy _ _. by split.
  - intros o Ho. apply (Habsent o Ho). left.
    revert o Ho. apply Forall_forall, (bool_decide_unpack _). by vm_compute.
Defined.

(** ** The median within a group *)

Lemma StronglySorted_drop_ge {A} (R : relation A) `{!Reflexive R} l j y :
  StronglySorted R l → l !! j = Some y → ∀ x, x ∈ drop j l → R y x.
Proof.
  intros Hl. revert j. induction Hl as [|z l Hl IH Hz]; intros j Hj x Hx.
  { by rewrite lookup_nil in Hj. }
  destruct j as [|j]; simpl in *.
  - simplify_eq. apply elem_of_cons in Hx as [->|Hx]; [done|].
    rewrite Forall_forall in Hz. by apply Hz.
  - by eapply IH.
Qed.

Lemma Qc_two_pos : (0 < Qc_of_Z 2)%Qc.
Proof. done. Qed.

Lemma Qc_half_double (x : Qc) : (x / Qc_of_Z 2 * Qc_of_Z 2 = x)%Qc.
Proof.
  assert (Qc_of_Z 2 = 1 + 1)%Qc as -> by (by apply Qc_is_canon).
  field. intros H. by apply (f_equal this) in H.
Qed.

Lemma Qc_double (x : Qc) : (x * Qc_of_Z 2 = x + x)%Qc.
Proof.
  assert (Qc_of_Z 2 = 1 + 1)%Qc as -> by (by apply Qc_is_canon). ring.
Qed.

Lemma midpoint_between (lo hi : Qc) :
  (lo ≤ hi → lo ≤ (lo + hi) / Qc_of_Z 2 ∧ (lo + hi) / Qc_of_Z 2 ≤ hi)%Qc.
Proof.
  intros Hle. split.
  - apply (Qcmult_le_mono_pos_r _ _ (Qc_of_Z 2) Qc_two_pos).
    rewrite Qc_half_double, Qc_double. by apply Qcplus_le_mono_l.
  - apply (Qcmult_le_mono_pos_r _ _ (Qc_of_Z 2) Qc_two_pos).
    rewrite Qc_half_double, Qc_double. by apply Qcplus_le_mono_r.
Qed.

Lemma order_statistics_sorted G sorted i j x y :
  order_statistics G sorted → sorted !! i = Some x → sorted !! j = Some y →
  (i ≤ j)%nat → (x ≤ y)%Qc.
Proof.
  intros [Hs _] Hi Hj Hij.
  apply (Sorted_StronglySorted _) in Hs.
  apply (StronglySorted_drop_ge Qcle sorted i x Hs Hi).
  apply list_elem_of_lookup. exists (j - i)%nat.
  rewrite lookup_drop. by replace (i + (j - i))%nat with j by lia.
Qed.

Lemma order_statistics_elem G sorted i x :
  order_statistics G sorted → sorted !! i = Some x → x ∈ G.
Proof. intros [_ <-] Hi. by eapply list_elem_of_lookup_2. Qed.

Lemma median_of_between G m :
  median_of G (Some m) → ∃ lo hi, lo ∈ G ∧ hi ∈ G ∧ (lo ≤ m)%Qc ∧ (m ≤ hi)%Qc.
Proof.
  inversion 1 as [|sorted k x Hos Hlen Hx|sorted k lo hi Hos Hlen Hlo Hhi]; subst.
  - exists m, m. pose proof (order_statistics_elem _ _ _ _ Hos Hx). done.
  - exists lo, hi.
    split; [by eapply order_statistics_elem|].
    split; [by eapply order_statistics_elem|].
    apply midpoint_between.
    eapply (order_statistics_sorted _ _ k (S k)); [done..|lia].
Qed.

Lemma median_of_upper_half G m :
  median_of G (Some m) →
  (length G ≤ 2 * length (filter (λ x, (m ≤ x)%Qc) G))%nat.
Proof.
  intros Hm.
  assert (∃ sorted j y, order_statistics G sorted ∧ sorted !! j = Some y
            ∧ (m ≤ y)%Qc ∧ (length G ≤ 2 * (length G - j))%nat)
    as (sorted & j & y & Hos & Hj & Hmy & Hn).
  { inversion Hm as [|sorted k x Hos Hlen Hx|sorted k lo hi Hos Hlen Hlo Hhi];
      subst.
    - exists sorted, k, m. repeat split; [apply Hos..|done|done|lia].
    - exists sorted, (S k), hi. repeat split; [apply Hos..|done| |lia].
      apply midpoint_between.
      eapply (order_statistics_sorted _ _ k (S k)); [done..|lia]. }
  destruct Hos as [Hs Hp].
  assert (filter (λ x, (m ≤ x)%Qc) sorted ≡ₚ filter (λ x, (m ≤ x)%Qc) G) as Hf
    by (by rewrite Hp).
  assert (length sorted = length G) as Hlen by (by rewrite Hp).
  rewrite <- (Permutation_length Hf).
  rewrite <- (take_drop j sorted), filter_app, length_app.
  rewrite (filter_all _ (drop j sorted)).
  - rewrite length_drop, Hlen. lia.
  - intros x Hx. etrans; [exact Hmy|].
    apply (Sorted_StronglySorted _) in Hs.
    by apply (StronglySorted_drop_ge Qcle sorted j y Hs Hj).
Qed.

(** X3 (the median lies within the group).  A median score that is present
    lies between two scores of the record's own group of exam year and hits. *)
Theorem median_between_min_and_max parquet sample_size o s m :
  o ∈ query parquet sample_size →
  Out.median_score o s = Some m →
  ∃ lo hi,
    lo ∈ group_scores s o (query parquet sample_size)
    ∧ hi ∈ group_scores s o (query parquet sample_size)
    ∧ (lo ≤ m)%Qc ∧ (m ≤ hi)%Qc.
Proof.
  intros Ho Hm. apply median_of_between. rewrite <- Hm.
  by apply median_score_of_group.
Qed.

Lemma median_between_min_and_max_witness :
  ∃ o m lo hi,
    o ∈ query two_scores_table None
    ∧ Out.median_score o math = Some m
    ∧ lo ∈ group_scores math o (query two_scores_table None)
    ∧ hi ∈ group_scores math o (query two_scores_table None)
    ∧ (lo ≤ m)%Qc ∧ (m ≤ hi)%Qc.
Proof.
  assert (∃ o, o ∈ query two_scores_table None
               ∧ is_Some (Out.median_score o math)) as (o & Ho & [m Hm]).
  { apply Exists_exists, (bool_decide_unpack _). by vm_compute. }
  destruct (median_between_min_and_max two_scores_table None o math m Ho Hm)
    as (lo & hi & H).
  exists o, m, lo, hi. split; [exact Ho|]. split; [exact Hm|]. exact H.
Defined.

(** ** Labels within a group *)

Lemma partition_by_same_group s j j' rel :
  Hits.exam_year j.1 = Hits.exam_year j'.1 →
  Hits.hits j.1 s = Hits.hits j'.1 s →
  partition_by s j rel = partition_by s j' rel.
Proof.
  intros Hy Hh. unfold partition_by. apply list_filter_iff.
  intros x. by rewrite Hy, Hh.
Qed.

Lemma median_score_same_group parquet ss o o' s :
  o ∈ query parquet ss → o' ∈ query parquet ss →
  Out.exam_year o = Out.exam_year o' →
  Out.hits o s = Out.hits o' s →
  Out.median_score o s = Out.median_score o' s.
Proof.
  rewrite query_joined.
  intros (j & -> & Hj)%list_elem_of_fmap (j' & -> & Hj')%list_elem_of_fmap.
  destruct (select_row_hits (joined parquet ss) j) as (_ & -> & _ & ->).
  destruct (select_row_hits (joined parquet ss) j') as (_ & -> & _ & ->).
  intros Hy Hh. rewrite !select_row_median. unfold median_over.
  by rewrite (partition_by_same_group s j j').
Qed.

(** X4 (labels within a group).  Two output records with the same exam
    year and the same hits in a subject get the same median score, and the
    label is monotone in the score: if the record with the lower score is
    labelled 1, so is the one with the higher score. *)
Theorem labels_monotone_within_group parquet sample_size o o' s :
  o ∈ query parquet sample_size →
  o' ∈ query parquet sample_size →
  Out.exam_year o = Out.exam_year o' →
  Out.hits o s = Out.hits o' s →
  Out.median_score o s = Out.median_score o' s
  ∧ ∀ x y, Out.score o s = Some x → Out.score o' s = Some y → (x ≤ y)%Qc →
           Out.above_median o s = 1 → Out.above_median o' s = 1.
Proof.
  intros Ho Ho' Hy Hh.
  pose proof (median_score_same_group parquet sample_size o o' s Ho Ho' Hy Hh)
    as Hm.
  split; [done|]. intros x y Hx Hy' Hle.
  rewrite (above_median_of_row parquet sample_size o s Ho).
  rewrite (above_median_of_row parquet sample_size o' s Ho').
  rewrite <- Hm, Hx, Hy'.
  intros (a & m & ? & Hmed & Hma)%CASE_WHEN_sql_ge. simplify_eq.
  apply CASE_WHEN_sql_ge. exists y, m. split; [done|]. split; [done|].
  by etrans.
Qed.

Lemma labels_monotone_within_group_witness :
  ∃ o o', o ∈ query three_scores_table None
          ∧ o' ∈ query three_scores_table None
          ∧ Out.median_score o math = Out.median_score o' math
          ∧ Out.above_median o math = 1 ∧ Out.above_median o' math = 1
          ∧ o ≠ o'.
Proof.
  assert (∃ o, o ∈ query three_scores_table None
    ∧ Out.registration_id o = Some 3 ∧ Out.exam_year o = Some 2017
    ∧ Out.hits o math = 10 ∧ this <$> Out.score o math = Some (inject_Z 550)
    ∧ Out.above_median o math = 1) as (o & Ho & Hid & Hy & Hh & Hsc & Hab).
  { apply Exists_exists, (bool_decide_unpack _). by vm_compute. }
  assert (∃ o, o ∈ query three_scores_table None
    ∧ Out.registration_id o = Some 2 ∧ Out.exam_year o = Some 2017
    ∧ Out.hits o math = 10 ∧ this <$> Out.score o math = Some (inject_Z 600))
    as (o' & Ho' & Hid' & Hy' & Hh' & Hsc').
  { apply Exists_exists, (bool_decide_unpack _). by vm_compute. }
  destruct (Out.score o math) as [x|] eqn:Hx; [|discriminate Hsc].
  destruct (Out.score o' math) as [y|] eqn:Hx'; [|discriminate Hsc'].
  destruct (labels_monotone_within_group three_scores_table None o o' math
              Ho Ho') as [Hm Hmono].
  - by rewrite Hy, Hy'.
  - by rewrite Hh, Hh'.
  - exists o, o'. split; [exact Ho|]. split; [exact Ho'|].
    split; [exact Hm|]. split; [exact Hab|]. split.
    + apply (Hmono x y Hx Hx'); [|exact Hab].
      injection Hsc as Hsc. injection Hsc' as Hsc'.
      unfold Qcle. rewrite Hsc, Hsc'. done.
    + intros ->. rewrite Hid in Hid'. discriminate Hid'.
Defined.

Lemma length_filter_label {A} (f : A → option Qc) (lab : A → Z) (m : Qc)
    (l : list A) :
  (∀ a, a ∈ l → lab a = 1 ↔ ∃ x, f a = Some x ∧ (m ≤ x)%Qc) →
  length (filter (λ a, lab a = 1) l)
  = length (filter (λ x, (m ≤ x)%Qc) (omap f l)).
Proof.
  induction l as [|a l IH]; intros Hlab; [done|].
  rewrite filter_cons. csimpl.
  assert (length (filter (λ a, lab a = 1) l)
          = length (filter (λ x, (m ≤ x)%Qc) (omap f l))) as IH'.
  { apply IH. intros b Hb. apply Hlab. by right. }
  pose proof (Hlab a (list_elem_of_here _ _)) as Ha.
  destruct (f a) as [x|] eqn:Hfa.
  - rewrite filter_cons. destruct (decide (lab a = 1)) as [H1|H1],
      (decide (m ≤ x)%Qc) as [H2|H2]; simpl; try by rewrite IH'.
    + apply Ha in H1 as (x' & ? & ?). by simplify_eq.
    + destruct H1. apply Ha. eauto.
  - destruct (decide (lab a = 1)) as [H1|H1]; [|done].
    apply Ha in H1 as (x' & ? & ?). done.
Qed.

Lemma length_omap_is_Some {A B} (f : A → option B) (l : list A) :
  length (omap f l) = length (filter (λ a, is_Some (f a)) l).
Proof.
  induction l as [|a l IH]; [done|]. csimpl. rewrite filter_cons.
  destruct (f a) as [b|] eqn:Hfa.
  - rewrite decide_True by (by eexists). simpl. by rewrite IH.
  - rewrite decide_False; [done|]. by intros [? ?].
Qed.

(** X5 (at least half of a group is labelled above).  In every group of
    exam year and hits, the records with a score are at most twice as many as
    the records labelled 1. *)
Theorem at_least_half_labelled_above parquet sample_size o s :
  o ∈ query parquet sample_size →
  let G := group s o (query parquet sample_size) in
  (length (filter (λ o', is_Some (Out.score o' s)) G)
   ≤ 2 * length (filter (λ o', Out.above_median o' s = 1%Z) G))%nat.
Proof.
  intros Ho G. subst G.
  rewrite <- (length_omap_is_Some (λ o', Out.score o' s)).
  change (omap (λ o', Out.score o' s) (group s o (query parquet sample_size)))
    with (group_scores s o (query parquet sample_size)).
  pose proof (median_score_of_group parquet sample_size o s Ho) as Hmed.
  destruct (Out.median_score o s) as [m|] eqn:Hm.
  - rewrite (length_filter_label (λ o', Out.score o' s) _ m).
    + by apply median_of_upper_half.
    + intros o' [[Hy Hh] Ho']%list_elem_of_filter.
      rewrite (above_median_of_row parquet sample_size o' s Ho').
      rewrite (median_score_same_group parquet sample_size o' o s Ho' Ho Hy Hh).
      rewrite Hm, CASE_WHEN_sql_ge. split.
      * intros (x & m' & ? & ? & ?). simplify_eq. eauto.
      * intros (x & ? & ?). eauto 10.
  - inversion Hmed as [HG| |]. rewrite HG. simpl. lia.
Qed.

Lemma at_least_half_labelled_above_witness :
  ∃ o, o ∈ query three_scores_table None
       ∧ (length (filter (λ o', is_Some (Out.score o' math))
                    (group math o (query three_scores_table None)))
          ≤ 2 * length (filter (λ o', Out.above_median o' math = 1%Z)
                          (group math o (query three_scores_table None))))%nat.
Proof.
  assert (∃ o, o ∈ query three_scores_table None) as [o Ho].
  { destruct (query three_scores_table None) as [|o l] eqn:E.
    - vm_compute in E. discriminate E.
    - exists o. left. }
  exists o. split; [exact Ho|].
  exact (at_least_half_labelled_above three_scores_table None o math Ho).
Defined.

(** ** The order of the rows of the source *)

Lemma SUM_Permutation l l' : l ≡ₚ l' → SUM l = SUM l'.
Proof. induction 1; simpl; lia. Qed.

Lemma each_ext {A} (f g : subject → A) : (∀ s, f s = g s) → each f = each g.
Proof. intros H. unfold each. by rewrite !H. Qed.

Lemma remove_dups_Permutation `{EqDecision A} (l l' : list A) :
  l ≡ₚ l' → remove_dups l ≡ₚ remove_dups l'.
Proof.
  intros Hp. apply NoDup_Permutation; [apply NoDup_remove_dups..|].
  intros x. by rewrite !elem_of_remove_dups, Hp.
Qed.

Lemma hits_cte_Permutation A A' : A ≡ₚ A' → hits_cte A ≡ₚ hits_cte A'.
Proof.
  intros Hp. unfold hits_cte.
  rewrite (remove_dups_Permutation (group_of <$> A) (group_of <$> A'))
    by (by rewrite Hp).
  match goal with |- ?f <$> ?k ≡ₚ ?g <$> _ =>
    assert (f <$> k = g <$> k) as ->; [|done] end.
  apply list_fmap_ext. intros _ g _. simpl. f_equal.
  apply each_ext. intros s. apply SUM_Permutation. by rewrite Hp.
Qed.

Lemma bind_Permutation_pointwise {A B} (f g : A → list B) (l : list A) :
  (∀ a, f a ≡ₚ g a) → l ≫= f ≡ₚ l ≫= g.
Proof.
  intros Hfg. induction l as [|a l IH]; [done|].
  rewrite !bind_cons. by rewrite (Hfg a), IH.
Qed.

Lemma LEFT_JOIN_Permutation {A B} (on : A → B → bool) l l' r r' :
  l ≡ₚ l' → r ≡ₚ r' → LEFT_JOIN on l r ≡ₚ LEFT_JOIN on l' r'.
Proof.
  intros Hl Hr. unfold LEFT_JOIN. rewrite <- Hl.
  apply bind_Permutation_pointwise. intros a.
  assert (filter (λ b, on a b) r ≡ₚ filter (λ b, on a b) r') as Hf
    by (by rewrite Hr).
  destruct (filter (λ b, on a b) r) as [|b ms],
    (filter (λ b, on a b) r') as [|b' ms'].
  - done.
  - apply Permutation_length in Hf. discriminate Hf.
  - apply Permutation_length in Hf. discriminate Hf.
  - by rewrite Hf.
Qed.

Lemma MEDIAN_Permutation vals vals' : vals ≡ₚ vals' → MEDIAN vals = MEDIAN vals'.
Proof.
  intros Hp. unfold MEDIAN.
  assert (merge_sort Qcle (omap id vals) = merge_sort Qcle (omap id vals'))
    as ->; [|done].
  apply (Sorted_unique Qcle); [apply Sorted_merge_sort, _..|].
  by rewrite !merge_sort_Permutation, Hp.
Qed.

Lemma select_row_Permutation rel rel' j :
  rel ≡ₚ rel' → select_row rel j = select_row rel' j.
Proof.
  intros Hp. destruct j as [h m]. unfold select_row.
  assert (∀ s, median_over s (h, m) rel = median_over s (h, m) rel') as Hmed.
  { intros s. unfold median_over, partition_by.
    apply MEDIAN_Permutation. by rewrite Hp. }
  f_equal; apply each_ext; intros s; by rewrite Hmed.
Qed.

(** X6 (the order of the source rows does not matter).  Reordering the rows
    of the source table only reorders the output records. *)
Theorem row_order_irrelevant t t' :
  t ≡ₚ t' → query t None ≡ₚ query t' None.
Proof.
  intros Hp. unfold query, LIMIT.
  assert (LEFT_JOIN join_on (hits_cte (answers_cte t)) t
          ≡ₚ LEFT_JOIN join_on (hits_cte (answers_cte t')) t') as Hrel.
  { apply LEFT_JOIN_Permutation; [|done].
    apply hits_cte_Permutation. unfold answers_cte. by rewrite Hp. }
  set (rel := LEFT_JOIN join_on (hits_cte (answers_cte t)) t) in *.
  set (rel' := LEFT_JOIN join_on (hits_cte (answers_cte t')) t') in *.
  trans (select_row rel' <$> rel).
  - assert (select_row rel <$> rel = select_row rel' <$> rel) as ->; [|done].
    apply list_fmap_ext. intros _ j _. by apply select_row_Permutation.
  - by apply fmap_Permutation.
Qed.

Lemma row_order_irrelevant_witness :
  query two_scores_table None ≡ₚ query (reverse two_scores_table) None.
Proof.
  apply row_order_irrelevant. symmetry. apply reverse_Permutation.
Defined.

(** ** Determinism *)






(** * Further properties of [_transform] and [build] *)

(** ** Dense ranks *)

Lemma ltb_le_ne u w : String.ltb u w ↔ String.le u w ∧ u ≠ w.
Proof.
  unfold String.le, String.ltb, String.leb.
  destruct (u ?= w)%string eqn:Hc; simpl.
  - apply String.compare_eq_iff in Hc. split; [done|]. by intros [_ ?].
  - split; [|done]. intros _. split; [done|].
    intros ->. pose proof (String.compare_antisym w w) as Ha.
    rewrite Hc in Ha. discriminate Ha.
  - split; [done|]. by intros [? _].
Qed.

Lemma filter_ltb_sorted D i w :
  StronglySorted String.le D → NoDup D → D !! i = Some w →
  filter (λ u, String.ltb u w) D = take i D.
Proof.
  intros Hs. revert i. induction Hs as [|x D Hs IH Hx]; intros i Hnd Hi.
  { by rewrite lookup_nil in Hi. }
  apply NoDup_cons in Hnd as [Hnotin Hnd]. rewrite Forall_forall in Hx.
  destruct i as [|i]; simpl in Hi.
  - simplify_eq. simpl. apply filter_none.
    intros u Hu [Hle Hne]%ltb_le_ne.
    apply elem_of_cons in Hu as [->|Hu]; [done|].
    apply Hne. by apply (anti_symm String.le); [|apply Hx].
  - assert (w ∈ D) as Hw by (by eapply list_elem_of_lookup_2).
    rewrite filter_cons_True.
    + simpl. f_equal. by apply IH.
    + apply ltb_le_ne. split; [by apply Hx|]. by intros ->.
Qed.

Lemma levels_sorted column :
  StronglySorted String.le (levels column) ∧ NoDup (levels column)
  ∧ ∀ w, w ∈ levels column ↔ Some w ∈ column.
Proof.
  unfold levels. split; [|split].
  - apply StronglySorted_merge_sort; apply _.
  - rewrite merge_sort_Permutation. apply NoDup_remove_dups.
  - intros w. rewrite merge_sort_Permutation, elem_of_remove_dups,
      list_elem_of_omap. split.
    + intros ([x|] & Hx & Hid); simplify_eq/=. done.
    + intros Hw. exists (Some w). done.
Qed.

Lemma length_remove_dups `{EqDecision A} (l : list A) :
  (length (remove_dups l) ≤ length l)%nat.
Proof.
  induction l as [|x l IH]; [done|]. simpl.
  destruct (decide_rel (∈) x l); simpl; lia.
Qed.

Lemma length_levels column : (length (levels column) ≤ length column)%nat.
Proof.
  unfold levels. rewrite merge_sort_Permutation.
  etrans; [apply length_remove_dups|].
  rewrite (length_omap_is_Some id). apply length_filter.
Qed.

Lemma rank_dense_level column i w :
  levels column !! i = Some w →
  rank_dense column (Some w) = Some (Z.of_nat i + 1).
Proof.
  intros Hi. destruct (levels_sorted column) as (Hs & Hnd & Hin).
  unfold rank_dense. simpl. f_equal.
  assert (remove_dups (filter (λ u, String.ltb u w) (omap id column))
          ≡ₚ filter (λ u, String.ltb u w) (levels column)) as Hp.
  { apply NoDup_Permutation.
    - apply NoDup_remove_dups.
    - by apply NoDup_filter.
    - intros x. rewrite elem_of_remove_dups, !list_elem_of_filter.
      unfold levels. by rewrite merge_sort_Permutation, elem_of_remove_dups. }
  rewrite Hp, (filter_ltb_sorted _ i w Hs Hnd Hi), length_take.
  apply lookup_lt_Some in Hi. lia.
Qed.

Lemma rank_dense_of_value column w :
  Some w ∈ column →
  ∃ i, levels column !! i = Some w
       ∧ rank_dense column (Some w) = Some (Z.of_nat i + 1)
       ∧ (i < length column)%nat.
Proof.
  intros Hw. destruct (levels_sorted column) as (_ & _ & Hin).
  apply Hin, list_elem_of_lookup in Hw as [i Hi].
  exists i. split; [done|]. split; [by apply rank_dense_level|].
  apply lookup_lt_Some in Hi. pose proof (length_levels column). lia.
Qed.

(** X7 (dense ranks).  A null stays null; the [i]-th smallest distinct
    value of the column gets rank [i + 1]; every value of the column gets a
    rank that is at most the number of rows; and ranks follow the order of the
    values: smaller value, smaller rank, equal rank only for equal values. *)
Theorem rank_dense_is_dense column :
  rank_dense column None = None
  ∧ (∀ i w, levels column !! i = Some w →
            rank_dense column (Some w) = Some (Z.of_nat i + 1))
  ∧ (∀ w, Some w ∈ column →
          ∃ i, levels column !! i = Some w
               ∧ rank_dense column (Some w) = Some (Z.of_nat i + 1)
               ∧ (i < length column)%nat)
  ∧ (∀ u w ku kw, Some u ∈ column → Some w ∈ column →
          rank_dense column (Some u) = Some ku →
          rank_dense column (Some w) = Some kw →
          (ku < kw ↔ String.ltb u w) ∧ (ku = kw ↔ u = w)).
Proof.
  destruct (levels_sorted column) as (Hs & Hnd & Hin).
  pose proof (rank_dense_of_value column) as Hrank.
  split; [done|]. split; [apply rank_dense_level|]. split; [exact Hrank|].
  intros u w ku kw Hu Hw Hku Hkw.
  destruct (Hrank u Hu) as (i & Hi & Hri & _).
  destruct (Hrank w Hw) as (j & Hj & Hrj & _).
  rewrite Hri in Hku. rewrite Hrj in Hkw. simplify_eq.
  assert (i = j ↔ u = w) as Heq.
  { split; [intros ->; congruence|intros ->].
    by eapply NoDup_lookup. }
  split; [|rewrite <- Heq; lia].
  rewrite ltb_le_ne. split.
  - intros Hlt. split; [|rewrite <- Heq; lia].
    apply (StronglySorted_drop_ge String.le (levels column) i u Hs Hi).
    apply list_elem_of_lookup. exists (j - i)%nat.
    rewrite lookup_drop. by replace (i + (j - i))%nat with j by lia.
  - intros [Hle Hne]. destruct (decide (i < j)%nat) as [|Hge]; [lia|].
    exfalso. apply Hne. apply (anti_symm String.le); [done|].
    apply (StronglySorted_drop_ge String.le (levels column) j w Hs Hj).
    apply list_elem_of_lookup. exists (i - j)%nat.
    rewrite lookup_drop. by replace (j + (i - j))%nat with i by lia.
Qed.

Lemma rank_dense_is_dense_witness :
  rank_dense [Some "M"; Some "F"; None; Some "F"] (Some "F") = Some 1
  ∧ rank_dense [Some "M"; Some "F"; None; Some "F"] (Some "M") = Some 2.
Proof.
  destruct (rank_dense_is_dense [Some "M"; Some "F"; None; Some "F"])
    as (_ & Hlevel & _).
  split.
  - apply (Hlevel 0%nat "F"). reflexivity.
  - apply (Hlevel 1%nat "M"). reflexivity.
Defined.

(** ** [_transform] *)

Lemma rank_dense_fits (c : csv_row → option string) (df : list csv_row) r :
  r ∈ df → Z.of_nat (length df) ≤ Int16_max →
  fits_Int16 (rank_dense (c <$> df) (c r)).
Proof.
  intros Hr Hlen. destruct (c r) as [w|] eqn:Hc; [|done].
  destruct (rank_dense_of_value (c <$> df) w) as (i & _ & -> & Hi).
  { rewrite <- Hc. by apply list_elem_of_fmap_2. }
  rewrite length_fmap in Hi. unfold Int16_max in Hlen. simpl. lia.
Qed.

Lemma transform_returns_rows df out :
  _transform df = Return out →
  length out = length df
  ∧ ∀ i r, df !! i = Some r →
           ∃ r', out !! i = Some r' ∧ same_columns r r' ∧ ranked_in df r r'.
Proof.
  unfold _transform. case_decide; [|done]. intros [= <-].
  split; [by rewrite length_fmap|].
  intros i r Hi. eexists. split.
  - rewrite list_lookup_fmap, Hi. done.
  - done.
Qed.

Lemma transform_fits df :
  Z.of_nat (length df) ≤ Int16_max → ∃ out, _transform df = Return out.
Proof.
  intros Hlen. unfold _transform. rewrite decide_True; [by eexists|].
  apply Forall_fmap, Forall_forall. intros r Hr. simpl.
  repeat split; by apply rank_dense_fits.
Qed.

Lemma transform_raises df e :
  _transform df = Raise e →
  e = PolarsError ∧ Int16_max < Z.of_nat (length df).
Proof.
  intros He.
  destruct (decide (Z.of_nat (length df) ≤ Int16_max)) as [Hlen|]; [|].
  - destruct (transform_fits df Hlen) as [out Hout]. congruence.
  - split; [|lia]. unfold _transform in He. case_decide; congruence.
Qed.

(** X8 ([_transform] keeps the rows).  On a table of at most [Int16_max]
    rows [_transform] returns.  Whenever it returns, the result has the rows
    of the input in the same order, each with its other columns untouched and
    its three categorical columns replaced by their dense ranks within the
    table, null exactly where the input was null.  It can only raise the cast
    error, and only on a table of more than [Int16_max] rows. *)
Theorem transform_keeps_rows :
  (∀ df, Z.of_nat (length df) ≤ Int16_max →
         ∃ out, _transform df = Return out)
  ∧ (∀ df out, _transform df = Return out →
       length out = length df
       ∧ ∀ i r, df !! i = Some r →
           ∃ r', out !! i = Some r' ∧ same_columns r r' ∧ ranked_in df r r'
                 ∧ (sex r' = None ↔ sex r = None)
                 ∧ (family_income_bracket r' = None
                    ↔ family_income_bracket r = None)
                 ∧ (school_funding_src r' = None
                    ↔ school_funding_src r = None))
  ∧ (∀ df e, _transform df = Raise e →
       e = PolarsError ∧ Int16_max < Z.of_nat (length df)).
Proof.
  split; [|split].
  - apply transform_fits.
  - intros df out Hout.
    destruct (transform_returns_rows df out Hout) as [Hlen Hrows].
    split; [done|]. intros i r Hi.
    destruct (Hrows i r Hi) as (r' & Hi' & Hsame & Hrank).
    exists r'. split; [done|]. split; [done|]. split; [done|].
    destruct Hrank as (-> & -> & ->). unfold rank_dense.
    repeat split; intros H;
      try (by apply fmap_None in H); by rewrite H.
  - apply transform_raises.
Qed.

Lemma transform_keeps_rows_witness :
  ∃ out, _transform csv_table = Return out ∧ length out = 3%nat.
Proof.
  destruct transform_keeps_rows as (Hret & Hrows & _).
  destruct (Hret csv_table) as [out Hout].
  - unfold Int16_max. simpl. lia.
  - exists out. split; [exact Hout|].
    destruct (Hrows csv_table out Hout) as [Hlen _]. exact Hlen.
Defined.

(** ** [build] *)

Lemma CSV_PATH_ne_OUT_PATH : CSV_PATH ≠ OUT_PATH.
Proof. done. Qed.

(** X9 ([build] can be run again).  When [build] returns, it returns
    [OUT_PATH], running it again on the resulting file system changes nothing,
    no file other than [OUT_PATH] has changed, and the file written has at
    most as many rows as the CSV.  When it raises, the file system is
    unchanged; it raises [FileNotFoundError] exactly when the CSV is missing. *)
Theorem build_rerunnable fs :
  (∀ fs', build fs = (Return OUT_PATH, fs') →
     build fs' = (Return OUT_PATH, fs')
     ∧ (∀ p, p ≠ OUT_PATH → fs' !! p = fs !! p)
     ∧ ∃ csv rows, fs !! CSV_PATH = Some (csv_file csv)
                   ∧ fs' !! OUT_PATH = Some (enem_parquet rows)
                   ∧ (length rows ≤ length csv)%nat)
  ∧ (∀ e fs', build fs = (Raise e, fs') → fs' = fs)
  ∧ ((build fs).1 = Raise FileNotFoundError ↔ fs !! CSV_PATH = None)
  ∧ (∀ res fs', build fs = (res, fs') → res = Return OUT_PATH ∨ ∃ e, res = Raise e).
Proof.
  unfold build.
  destruct (fs !! CSV_PATH) as [[csv| |]|] eqn:Hcsv;
    [destruct (_transform csv) as [df|e] eqn:Hdf|..].
  - split; [|split; [|split]].
    + intros fs' [= <-]. split; [|split].
      * rewrite lookup_insert_ne by apply not_eq_sym, CSV_PATH_ne_OUT_PATH.
        rewrite Hcsv, Hdf. by rewrite insert_insert_eq.
      * intros p Hp. by rewrite lookup_insert_ne.
      * exists csv, (filter (λ r, present_in_all r) df).
        split; [done|]. split; [apply lookup_insert_eq|].
        etrans; [apply length_filter|].
        by destruct (transform_returns_rows csv df Hdf) as [-> _].
    + intros e fs' [= ]. 
    + simpl. split; intros [= ].
    + intros res fs' [= <- _]. by left.
  - split; [|split; [|split]].
    + intros fs' [= ].
    + by intros e' fs' [= _ <-].
    + simpl. split; [|intros [= ]]. intros [= ->].
      by destruct (transform_raises csv _ Hdf).
    + intros res fs' [= <- _]. eauto.
  - split; [|split; [|split]].
    + intros fs' [= ].
    + by intros e' fs' [= _ <-].
    + simpl. split; intros [= ].
    + intros res fs' [= <- _]. eauto.
  - split; [|split; [|split]].
    + intros fs' [= ].
    + by intros e' fs' [= _ <-].
    + simpl. split; intros [= ].
    + intros res fs' [= <- _]. eauto.
  - split; [|split; [|split]].
    + intros fs' [= ].
    + by intros e' fs' [= _ <-].
    + done.
    + intros res fs' [= <- _]. eauto.
Qed.

Lemma build_rerunnable_witness :
  build (build raw_fs).2 = build raw_fs.
Proof.
  destruct (build_rerunnable raw_fs) as (Hrerun & _).
  assert ((build raw_fs).1 = Return OUT_PATH) as H1 by (by vm_compute).
  destruct (build raw_fs) as [res fs'] eqn:Hb. simpl in *. subst res.
  by destruct (Hrerun fs' eq_refl) as [-> _].
Defined.

(** * Further properties of [compute_hits] *)

(** X10 (how [compute_hits] fails).  It raises [FileNotFoundError] exactly
    when the source path does not exist; a run that raises leaves the file
    system unchanged, and no run touches a path other than the output path.
    When the output path is the source path, the first run overwrites the
    source with the hits table and a second run fails in the query. *)
Theorem compute_hits_failure_modes fs parquet_path out_path sample_size :
  ((compute_hits parquet_path out_path sample_size fs).1
     = Raise FileNotFoundError
   ↔ fs !! parquet_path = None)
  ∧ (∀ e fs', compute_hits parquet_path out_path sample_size fs = (Raise e, fs')
              → fs' = fs)
  ∧ (∀ p, p ≠ out_path →
          (compute_hits parquet_path out_path sample_size fs).2 !! p = fs !! p)
  ∧ (∀ rows, fs !! parquet_path = Some (enem_parquet rows) →
       ∃ fs1, compute_hits parquet_path parquet_path sample_size fs
                = (Return parquet_path, fs1)
              ∧ compute_hits parquet_path parquet_path sample_size fs1
                = (Raise DuckDBError, fs1)).
Proof.
  unfold compute_hits.
  destruct (fs !! parquet_path) as [[csv|rows|hits]|] eqn:Hfs; simpl.
  - split; [|split; [|split]]; try done.
    + by intros e fs' [= _ <-].
  - split; [|split; [|split]]; try done.
    + intros p Hp. by rewrite lookup_insert_ne.
    + intros rows' [= <-]. eexists. split; [done|].
      by rewrite lookup_insert_eq.
  - split; [|split; [|split]]; try done.
    + by intros e fs' [= _ <-].
  - split; [|split; [|split]]; try done.
    + by intros e fs' [= _ <-].
Qed.

Lemma compute_hits_failure_modes_witness :
  ∃ fs1, compute_hits SOURCE_PARQUET SOURCE_PARQUET None processed_fs
           = (Return SOURCE_PARQUET, fs1)
         ∧ compute_hits SOURCE_PARQUET SOURCE_PARQUET None fs1
           = (Raise DuckDBError, fs1).
Proof.
  destruct (compute_hits_failure_modes processed_fs SOURCE_PARQUET
              HITS_PARQUET None) as (_ & _ & _ & Hinplace).
  apply (Hinplace two_scores_table). reflexivity.
Defined.

Lemma length_answers_cte t : (length t ≤ length (answers_cte t))%nat.
Proof.
  unfold answers_cte. induction t as [|r t IH]; [done|].
  rewrite bind_cons, length_app. simpl length.
  pose proof (answers_rows_nonempty r).
  destruct (answers_rows r); [done|]. simpl length. lia.
Qed.

Lemma matches_at_most_one t h :
  NoDup (registration_id <$> t) → (length (matches h t) ≤ 1)%nat.
Proof.
  unfold matches. induction t as [|r t IH]; [intros _; simpl; lia|].
  rewrite fmap_cons. intros [Hr Hnd]%NoDup_cons.
  rewrite filter_cons. destruct (decide (join_on h r)) as [Hon|_]; [|by apply IH].
  rewrite filter_none; [done|]. intros x Hx Hon'. apply Hr.
  apply join_on_spec in Hon as (i & y & Hi & -> & _).
  apply join_on_spec in Hon' as (i' & y' & Hi' & Hx' & _).
  rewrite Hi in Hi'. injection Hi' as <-. rewrite <- Hx'.
  by apply list_elem_of_fmap_2.
Qed.

Lemma sum_list_ones {A} (f : A → nat) (l : list A) :
  (∀ x, (f x ≤ 1)%nat) → (sum_list (f <$> l) ≤ length l)%nat.
Proof.
  intros Hf. induction l as [|x l IH]; [done|].
  rewrite fmap_cons. simpl. specialize (Hf x). lia.
Qed.

(** X11 ([sample_size]).  The [LIMIT] of a sample size [n] keeps the first
    [n] unnested rows, that is positions, not candidates.  The result is that
    of the whole table as soon as [n] is at least the number of unnested
    rows.  Every output record stems from one of the first [n] rows of the
    source; with unique registration ids among them there are at most [n]
    output records, and the hits of a record are a partial count, between 0
    and the matches of all positions of its candidate.  With answers "ABCD"
    against the key "ABXD", a sample size of 1 gives 1 hit and a sample size
    of 3 gives 2; on three candidates with ten hits each, a sample size of 2
    leaves the first candidate alone, with 2 hits and its own score as the
    median. *)
Theorem sample_size_limits_the_scan :
  (∀ parquet n,
     ((length (answers_cte parquet) ≤ n)%nat →
      query parquet (Some n) = query parquet None)
     ∧ (∀ o, o ∈ query parquet (Some n) →
             ∃ r, r ∈ take n parquet ∧ candidate_key r = out_key o)
     ∧ (NoDup (registration_id <$> take n parquet) →
        (length (query parquet (Some n)) ≤ n)%nat
        ∧ ∀ r o s, r ∈ take n parquet →
                   o ∈ query parquet (Some n) →
                   Out.registration_id o = registration_id r →
                   0 ≤ Out.hits o s
                     ≤ aligned_matches (ans_list r s) (key_list r s)))
  ∧ Out.hits <$> query abcd_table (Some 1%nat) = [PerSubject 1 0 0 0]
  ∧ Out.hits <$> query abcd_table (Some 3%nat) = [PerSubject 2 0 0 0]
  ∧ (λ o, (Out.registration_id o, Out.hits o math,
           this <$> Out.median_score o math, Out.above_median o math))
      <$> query three_scores_table (Some 2%nat)
    = [(Some 1, 2, Some (inject_Z 500), 1)].
Proof.
  split; [|repeat split; by vm_compute].
  intros parquet n. split; [|split].
  - intros Hlen. pose proof (length_answers_cte parquet).
    unfold query, LIMIT. rewrite !take_ge by lia. done.
  - intros o Ho. apply hits_columns_in_hits, elem_of_hits_cte_LIMIT in Ho
      as (r & Hr & Hkey & _).
    exists r. split; [done|]. by rewrite out_key_hits_columns.
  - intros Hnd. split.
    + rewrite query_joined, length_fmap. unfold joined.
      etrans; [apply Nat.eq_le_incl, length_LEFT_JOIN|].
      etrans; [apply sum_list_ones|].
      * intros h. pose proof (matches_at_most_one (LIMIT (Some n) parquet) h Hnd)
          as Hm. unfold matches in Hm. lia.
      * unfold hits_cte. rewrite length_fmap.
        etrans; [apply length_remove_dups|].
        rewrite length_fmap. unfold LIMIT. rewrite length_take. lia.
    + intros r o s Hr Ho Hid.
      rewrite ans_list_sentinel, key_list_sentinel.
      by apply (hits_of_candidate_bounds parquet (Some n) r o s).
Qed.

Lemma sample_size_limits_the_scan_witness :
  (length (query three_scores_table (Some 2%nat)) ≤ 2)%nat.
Proof.
  destruct sample_size_limits_the_scan as [Hall _].
  destruct (Hall three_scores_table 2%nat) as (_ & _ & Hlen).
  apply Hlen. apply (bool_decide_unpack _). by vm_compute.
Defined.

(** * Properties of the data preparation for the regressions *)

Lemma area_row_None s b :
  kept_for_area s b →
  area_row s b = None ↔ Out.race_color (as_read b) = None.
Proof.
  intros (_ & _ & [e He] & _ & [i Hi]). unfold area_row.
  rewrite He, Hi. simpl. by destruct (Out.race_color (as_read b)).
Qed.

Lemma area_row_Some s b a :
  kept_for_area s b → area_row s b = Some a →
  Area.presence a = Some 1
  ∧ Area.exam_code a ∈ VALID_EXAM_CODES
  ∧ is_Some (Area.score a)
  ∧ Out.code_exam (as_read b) s = Some (Area.exam_code a)
  ∧ income_bracket b = Some (Area.income_bracket a)
  ∧ Out.race_color (as_read b) = Some (Area.race_color a)
  ∧ Area.score a = Out.score (as_read b) s
  ∧ Area.hits a = Out.hits (as_read b) s.
Proof.
  intros (Hp & Hvalid & [e He] & Hsc & [i Hi]). unfold area_row.
  rewrite He, Hi. simpl.
  destruct (Out.race_color (as_read b)) as [c|]; simpl; [|done].
  intros [= <-]. simpl. repeat split; try done.
  rewrite He in Hvalid. simpl in Hvalid. by case_decide.
Qed.

(** X12 ([prepare_area_df]).  When it returns, the rows are, in order, the
    rows of the frame that pass the three filters, renamed and cast; there are
    no more of them than rows in the frame, and each has presence 1, a valid
    exam code and a score.  It raises [KeyError] exactly when the area code is
    unknown or the frame lacks the hits columns, and the integer cast fails
    exactly when a row that passes the filters has no race. *)
Theorem prepare_area_df_contract df area :
  (∀ out, prepare_area_df df area = inr out →
     ∃ s rows,
       AREAS area = Some s ∧ df = hits_frame rows
       ∧ Forall2 (λ b a, area_row s b = Some a)
           (filter (kept_for_area s) rows) out
       ∧ (length out ≤ length rows)%nat
       ∧ Forall (λ a, Area.presence a = Some 1
                      ∧ Area.exam_code a ∈ VALID_EXAM_CODES
                      ∧ is_Some (Area.score a)) out)
  ∧ (prepare_area_df df area = inl KeyError
     ↔ AREAS area = None ∨ ∃ rows, df = enem_frame rows)
  ∧ (prepare_area_df df area = inl IntCastingNaNError
     ↔ ∃ s rows b,
         AREAS area = Some s ∧ df = hits_frame rows ∧ b ∈ rows
         ∧ kept_for_area s b ∧ Out.race_color (as_read b) = None).
Proof.
  unfold prepare_area_df.
  destruct (AREAS area) as [s|] eqn:Harea; [destruct df as [rows|rows]|].
  - destruct (mapM (area_row s) (filter (kept_for_area s) rows)) as [out|]
      eqn:Hmap.
    + apply mapM_Some in Hmap. split; [|split].
      * intros out' [= <-]. exists s, rows. split; [done|]. split; [done|].
        split; [done|]. split.
        { rewrite <- (Forall2_length _ _ _ Hmap). apply length_filter. }
        eapply Forall2_Forall_r; [exact Hmap|].
        apply Forall_forall. intros b [Hkept _]%list_elem_of_filter a Ha.
        destruct (area_row_Some s b a Hkept Ha) as (? & ? & ? & _). done.
      * split; [done|]. intros [[= ]|[rows' [= ]]].
      * split; [done|].
        intros (s' & rows' & b & [= <-] & [= <-] & Hb & Hk & Hr).
        exfalso. apply (area_row_None s b Hk) in Hr.
        assert (b ∈ filter (kept_for_area s) rows) as [i Hi]%list_elem_of_lookup_1
          by (by apply list_elem_of_filter).
        destruct (Forall2_lookup_l _ _ _ _ _ Hmap Hi) as (a & _ & Ha).
        rewrite Hr in Ha. discriminate Ha.
    + apply mapM_None, Exists_exists in Hmap as (b & Hb & Hnone).
      apply list_elem_of_filter in Hb as [Hk Hb].
      split; [done|]. split.
      * split; [done|]. intros [[= ]|[rows' [= ]]].
      * split; [|done]. intros _. exists s, rows, b.
        split; [done|]. split; [done|]. split; [done|]. split; [done|].
        by apply (area_row_None s b Hk).
  - split; [done|]. split.
    + split; [|done]. intros _. right. by eexists.
    + split; [done|]. by intros (? & ? & ? & _ & [= ] & _).
  - split; [done|]. split.
    + split; [by left|done].
    + split; [done|]. by intros (? & ? & ? & [= ] & _).
Qed.

Lemma prepare_area_df_contract_witness :
  ∃ df out, load_base_df HITS_PARQUET
              (hits_fs [regression_sample 1 (Some 2)]) = inr df
            ∧ prepare_area_df df "MT" = inr out
            ∧ length out = 1%nat
            ∧ Forall (λ a, Area.presence a = Some 1
                           ∧ Area.exam_code a ∈ VALID_EXAM_CODES
                           ∧ is_Some (Area.score a)) out.
Proof.
  destruct (load_base_df HITS_PARQUET (hits_fs [regression_sample 1 (Some 2)]))
    as [e|df] eqn:Hload; [vm_compute in Hload; discriminate Hload|].
  assert (∃ out, prepare_area_df df "MT" = inr out ∧ length out = 1%nat)
    as (out & Hout & Hlen).
  { assert (match load_base_df HITS_PARQUET
                    (hits_fs [regression_sample 1 (Some 2)]) with
            | inr df => length <$> (match prepare_area_df df "MT" with
                                    | inr out => Some out | inl _ => None end)
            | inl _ => None
            end = Some 1%nat) as Hc by (by vm_compute).
    rewrite Hload in Hc. destruct (prepare_area_df df "MT") as [e|out];
      [discriminate Hc|]. exists out. split; [done|]. by injection Hc. }
  exists df, out. split; [reflexivity|]. split; [exact Hout|].
  split; [exact Hlen|].
  destruct (proj1 (prepare_area_df_contract df "MT") out Hout)
    as (s & rows & _ & _ & _ & _ & Hall).
  exact Hall.
Defined.

Lemma equals_flag_spec x v :
  (equals_flag x v = 1 ↔ x = Some v)
  ∧ (equals_flag x v = 0 ∨ equals_flag x v = 1).
Proof. unfold equals_flag. case_decide; split; auto; by split. Qed.

Lemma isin_flag_spec x vs :
  (isin_flag x vs = 1 ↔ ∃ v, x = Some v ∧ v ∈ vs)
  ∧ (isin_flag x vs = 0 ∨ isin_flag x vs = 1).
Proof.
  unfold isin_flag. destruct x as [v|].
  - case_decide; split; auto.
    + split; eauto.
    + split; [done|]. intros (v' & [= <-] & ?). done.
  - split; auto. split; [done|]. by intros (? & ? & _).
Qed.

Lemma indicators_of_base_features s (o : Out.row) a :
  area_row s (base_features Out.family_income_bracket Out.school_funding_src
                Out.sex Out.race_color o) = Some a →
  indicators_agree a
  ∧ Area.registration_id a = Out.registration_id o
  ∧ Area.exam_year a = Out.exam_year o
  ∧ Area.hits a = Out.hits o s
  ∧ Area.score a = Out.score o s.
Proof.
  unfold area_row, base_features. simpl.
  destruct (Out.code_exam o s) as [e|]; simpl; [|done].
  destruct (Out.family_income_bracket o) as [i|] eqn:Hi; simpl; [|done].
  destruct (Out.race_color o) as [c|] eqn:Hc; simpl; [|done].
  intros [= <-]. unfold indicators_agree. simpl.
  destruct (equals_flag_spec (Out.school_funding_src o) 1) as [? ?].
  destruct (equals_flag_spec (Out.sex o) 1) as [? ?].
  destruct (equals_flag_spec (Some c) 2) as [Hb ?].
  destruct (isin_flag_spec (Some i) [1; 2]) as [Hl ?].
  repeat split; try done; try tauto.
  - intros ?%Hb. congruence.
  - intros ->. by apply Hb.
  - intros (v & [= <-] & Hv)%Hl.
    apply elem_of_cons in Hv as [->|Hv]; [by left|].
    apply elem_of_cons in Hv as [->|Hv]; [by right|].
    by apply elem_of_nil in Hv.
  - intros Hv. apply Hl. exists i. split; [done|].
    destruct Hv as [->| ->]; [left|right; left].
Qed.

(** X13 (from the hits file to the regression rows).  On a hits file
    [load_base_df] returns a frame on which [prepare_area_df], for a known
    area, never raises [KeyError]; every row it returns has indicators that
    are 0 or 1 and agree with their source columns, and has the registration
    id, exam year, hits and score of a record of the file. *)
Theorem regression_rows_of_hits_file fs parquet_path rows area s :
  fs !! parquet_path = Some (hits_parquet rows) →
  AREAS area = Some s →
  ∃ df,
    load_base_df parquet_path fs = inr df
    ∧ prepare_area_df df area ≠ inl KeyError
    ∧ ∀ out, prepare_area_df df area = inr out →
        Forall (λ a, indicators_agree a
                     ∧ ∃ o, o ∈ rows
                            ∧ Area.registration_id a = Out.registration_id o
                            ∧ Area.exam_year a = Out.exam_year o
                            ∧ Area.hits a = Out.hits o s
                            ∧ Area.score a = Out.score o s) out.
Proof.
  intros Hfs Harea. unfold load_base_df. rewrite Hfs.
  eexists. split; [done|]. unfold prepare_area_df. rewrite Harea.
  destruct (mapM _ _) as [out|] eqn:Hmap; [|split; [done|done]].
  split; [done|]. intros out' [= <-].
  apply mapM_Some in Hmap. eapply Forall2_Forall_r; [exact Hmap|].
  apply Forall_forall.
  intros b [_ (o & -> & Ho)%list_elem_of_fmap]%list_elem_of_filter a Ha.
  destruct (indicators_of_base_features s o a Ha) as (? & ? & ? & ? & ?).
  split; [done|]. exists o. done.
Qed.

Lemma regression_rows_of_hits_file_witness :
  ∃ df, load_base_df HITS_PARQUET (hits_fs [regression_sample 1 (Some 2)])
          = inr df
        ∧ prepare_area_df df "MT" ≠ inl KeyError.
Proof.
  destruct (regression_rows_of_hits_file
              (hits_fs [regression_sample 1 (Some 2)]) HITS_PARQUET
              (query [regression_sample 1 (Some 2)] None) "MT" math)
    as (df & Hload & Hkey & _).
  - reflexivity.
  - reflexivity.
  - exists df. split; [exact Hload|exact Hkey].
Defined.

(** * Properties of the plotted series *)

Lemma filter_ext_in {A} (P Q : A → Prop) `{!∀ x, Decision (P x)}
    `{!∀ x, Decision (Q x)} (l : list A) :
  (∀ x, x ∈ l → P x ↔ Q x) → filter P l = filter Q l.
Proof.
  induction l as [|x l IH]; intros HPQ; [done|].
  rewrite !filter_cons.
  pose proof (HPQ x (list_elem_of_here _ _)) as Hx.
  rewrite IH by (intros y Hy; apply HPQ; by right).
  destruct (decide (P x)), (decide (Q x)); tauto.
Qed.

(** X14 (the two scatter series).  The series [above] and [below] together
    hold every record of the hits table exactly once.  [above] holds the
    records whose score is at least the median of their group, so a score
    equal to the median is plotted in the series labelled "Score > Median";
    [below] holds the records without a score and those whose score is
    strictly below the median. *)
Theorem plotted_series_partition parquet sample_size exam :
  let df := query parquet sample_size in
  above exam df ++ below exam df ≡ₚ df
  ∧ (∀ o, o ∈ above exam df ↔
          o ∈ df ∧ ∃ x m, Out.score o exam = Some x
                          ∧ Out.median_score o exam = Some m ∧ (m ≤ x)%Qc)
  ∧ (∀ o, o ∈ below exam df ↔
          o ∈ df ∧ (Out.score o exam = None
                    ∨ ∃ x m, Out.score o exam = Some x
                             ∧ Out.median_score o exam = Some m
                             ∧ (x < m)%Qc)).
Proof.
  intros df. split; [|split].
  - unfold above, below.
    rewrite (filter_ext_in (λ o, Out.above_median o exam = 0)
               (λ o, ¬ Out.above_median o exam = 1) df).
    + apply filter_app_complement.
    + intros o Ho.
      rewrite (above_median_of_row parquet sample_size o exam Ho).
      destruct (CASE_WHEN_0_or_1
                  (sql_ge (Out.score o exam) (Out.median_score o exam)));
        lia.
  - intros o. unfold above. rewrite list_elem_of_filter. split.
    + intros [H1 Ho]. split; [done|].
      rewrite (above_median_of_row parquet sample_size o exam Ho) in H1.
      by apply CASE_WHEN_sql_ge.
    + intros [Ho H1]. split; [|done].
      rewrite (above_median_of_row parquet sample_size o exam Ho).
      by apply CASE_WHEN_sql_ge.
  - intros o. unfold below. rewrite list_elem_of_filter.
    assert (o ∈ df →
      (Out.above_median o exam = 0 ↔
       Out.score o exam = None
       ∨ ∃ x m, Out.score o exam = Some x
                ∧ Out.median_score o exam = Some m ∧ (x < m)%Qc)) as Hiff.
    { intros Ho.
      rewrite (above_median_of_row parquet sample_size o exam Ho).
      destruct (Out.score o exam) as [x|] eqn:Hx; [|by split; [left|]].
      destruct (median_score_present parquet sample_size o exam x Ho Hx)
        as [m Hm].
      rewrite Hm. unfold CASE_WHEN. simpl. case_bool_decide as Hle; simpl.
      - split; [done|]. intros [[= ]|(x' & m' & [= <-] & [= <-] & Hlt)].
        by apply Qclt_not_le in Hlt.
      - split; [|done]. intros _. right. exists x, m.
        split; [done|]. split; [done|]. by apply Qclt_nge. }
    split; intros [? ?]; split; try done; by apply Hiff.
Qed.

Lemma plotted_series_partition_witness :
  ∃ o, o ∈ above math (query three_scores_table None)
       ∧ Out.score o math = Out.median_score o math.
Proof.
  assert (∃ o, o ∈ query three_scores_table None
               ∧ is_Some (Out.score o math)
               ∧ Out.registration_id o = Some 3
               ∧ this <$> Out.score o math = this <$> Out.median_score o math)
    as (o & Ho & [x Hx] & _ & Heq).
  { apply Exists_exists, (bool_decide_unpack _). by vm_compute. }
  assert (Out.score o math = Out.median_score o math) as Hsame.
  { rewrite Hx in *. destruct (Out.median_score o math) as [m|];
      [|discriminate Heq]. injection Heq as Heq. f_equal.
    apply Qc_is_canon. by rewrite Heq. }
  exists o. split; [|exact Hsame].
  apply (proj1 (proj2 (plotted_series_partition three_scores_table None math)) o).
  split; [exact Ho|]. exists x, x. split; [exact Hx|].
  split; [by rewrite <- Hsame|]. apply Qcle_refl.
Defined.

Lemma even_double k : Nat.even (2 * k) = true.
Proof. apply Nat.even_spec. by exists k. Qed.

Lemma even_double_succ k : Nat.even (2 * k + 1) = false.
Proof.
  rewrite <- Nat.negb_odd. apply negb_false_iff, Nat.odd_spec. by exists k.
Qed.

Lemma pandas_median_MEDIAN vals : pandas_median vals = MEDIAN vals.
Proof.
  unfold pandas_median, MEDIAN. cbv zeta.
  set (sorted := merge_sort Qcle (omap id vals)).
  destruct (Nat.Even_or_Odd (length sorted)) as [[k Hk]|[k Hk]].
  - destruct k as [|k].
    + assert (sorted = []) as -> by (apply nil_length_inv; lia). done.
    + rewrite decide_False by lia.
      replace (length sorted - 1)%nat with (2 * k + 1)%nat by lia.
      rewrite Hk, even_double, div2_odd, div2_even.
      replace (S k - 1)%nat with k by lia.
      destruct (sorted !! k) as [lo|]; simpl; [|done].
      destruct (sorted !! S k) as [hi|]; simpl; [|done].
      rewrite decide_False by lia. by rewrite half_Qc.
  - rewrite decide_False by lia.
    replace (length sorted - 1)%nat with (2 * k)%nat by lia.
    rewrite Hk, even_double_succ, div2_odd, div2_even.
    destruct (sorted !! k) as [x|]; simpl; [|done].
    by rewrite decide_True.
Qed.

Lemma median_score_of_rows parquet ss o s :
  o ∈ query parquet ss →
  Out.median_score o s
  = MEDIAN ((λ o', Out.score o' s) <$> group s o (query parquet ss)).
Proof.
  rewrite query_joined. intros (j & -> & Hj)%list_elem_of_fmap.
  rewrite select_row_median. unfold median_over, group, partition_by.
  rewrite filter_fmap, <- list_fmap_compose.
  destruct (select_row_hits (joined parquet ss) j) as (_ & -> & _ & ->).
  f_equal. symmetry.
  erewrite (list_filter_iff _ (λ j' : joined_row,
    Hits.exam_year j'.1 = Hits.exam_year j.1
    ∧ Hits.hits j'.1 s = Hits.hits j.1 s)).
  - apply list_fmap_ext. intros _ x _. simpl.
    by destruct (select_row_hits (joined parquet ss) x) as (_ & _ & -> & _).
  - intros x.
    by destruct (select_row_hits (joined parquet ss) x) as (_ & -> & _ & ->).
Qed.

(** X15 (the black dots are the median scores).  When all records have the
    same exam year, the medians [plot_hits] recomputes per number of hits are
    the [median_score] column: every record's pair of hits and median score is
    an entry of [median_plot], every entry is such a pair, and the entries
    come with distinct, increasing numbers of hits. *)
Theorem median_plot_matches_median_score parquet sample_size exam :
  let df := query parquet sample_size in
  (∀ o o', o ∈ df → o' ∈ df → Out.exam_year o = Out.exam_year o') →
  (∀ o, o ∈ df →
        (Out.hits o exam, Out.median_score o exam) ∈ median_plot exam df)
  ∧ (∀ h m, (h, m) ∈ median_plot exam df →
            ∃ o, o ∈ df ∧ Out.hits o exam = h
                 ∧ Out.median_score o exam = m)
  ∧ NoDup (median_plot exam df).*1
  ∧ Sorted Z.le (median_plot exam df).*1.
Proof.
  intros df Hyear.
  assert (∀ o, o ∈ df →
    pandas_median ((λ o', Out.score o' exam)
       <$> filter (λ o', Out.hits o' exam = Out.hits o exam) df)
    = Out.median_score o exam) as Hmed.
  { intros o Ho. rewrite pandas_median_MEDIAN.
    rewrite (median_score_of_rows parquet sample_size o exam Ho).
    fold df. unfold group. f_equal. f_equal. apply filter_ext_in.
    intros o' Ho'. split; [|by intros [_ ?]].
    intros Hh. split; [by apply Hyear|done]. }
  assert ((median_plot exam df).*1
          = merge_sort Z.le (remove_dups ((λ o, Out.hits o exam) <$> df)))
    as Hkeys.
  { unfold median_plot. rewrite <- list_fmap_compose. apply list_fmap_id. }
  split; [|split; [|split]].
  - intros o Ho. unfold median_plot. apply list_elem_of_fmap.
    exists (Out.hits o exam). split; [by rewrite Hmed|].
    rewrite merge_sort_Permutation, elem_of_remove_dups.
    by apply (list_elem_of_fmap_2 (λ o, Out.hits o exam)).
  - intros h m (h' & [= -> ->] & Hh)%list_elem_of_fmap.
    rewrite merge_sort_Permutation, elem_of_remove_dups in Hh.
    apply list_elem_of_fmap in Hh as (o & -> & Ho).
    exists o. split; [done|]. split; [done|]. by rewrite Hmed.
  - rewrite Hkeys, merge_sort_Permutation. apply NoDup_remove_dups.
  - rewrite Hkeys. apply Sorted_merge_sort, _.
Qed.

Lemma median_plot_matches_median_score_witness :
  Forall (λ o, (Out.hits o math, Out.median_score o math)
                 ∈ median_plot math (query three_scores_table None))
    (query three_scores_table None)
  ∧ length (median_plot math (query three_scores_table None)) = 1%nat.
Proof.
  split; [|by vm_compute].
  apply Forall_forall.
  apply (median_plot_matches_median_score three_scores_table None math).
  intros o1 o2 Ho1 Ho2.
  assert (Forall (λ o, Out.exam_year o = Some 2017)
            (query three_scores_table None)) as Hall.
  { apply (bool_decide_unpack _). by vm_compute. }
  rewrite Forall_forall in Hall. by rewrite (Hall o1 Ho1), (Hall o2 Ho2).
Defined.

(** * The three stages together *)

Lemma passthrough_when_keyed parquet ss o :
  o ∈ query parquet ss →
  is_Some (Out.registration_id o) → is_Some (Out.exam_year o) →
  ∃ r, r ∈ LIMIT ss parquet ∧ passthrough_of r o.
Proof.
  intros (h & m & -> & Hh & Hm)%elem_of_query [i Hi] [y Hy].
  simpl in Hi, Hy. destruct m as [r|].
  - exists r. apply list_elem_of_filter in Hm as [_ Hr].
    split; [done|apply passthrough_of_select].
  - apply elem_of_hits_cte_LIMIT in Hh as (r & Hr & Hkey & _).
    exfalso. eapply (filter_nil_not_elem_of _ _ r); [exact Hm| |exact Hr].
    apply join_on_spec. exists i, y. unfold candidate_key in Hkey.
    repeat split; congruence.
Qed.

Lemma passthrough_when_null parquet ss o :
  o ∈ query parquet ss →
  Out.registration_id o = None ∨ Out.exam_year o = None →
  passthrough_absent o.
Proof.
  intros (h & m & -> & Hh & Hm)%elem_of_query Hnull. destruct m as [r|].
  - apply list_elem_of_filter in Hm as [Hon _].
    apply join_on_spec in Hon as (i' & y' & Hi1 & _ & Hy1 & _).
    simpl in Hnull. destruct Hnull; congruence.
  - apply passthrough_absent_select.
Qed.

(** X16 (presence after the three stages).  After [build] and then
    [compute_hits] on the file [build] wrote, every record of the hits file
    whose registration id and exam year are present has presence 1 in all
    four subjects, and every other record has all four presences null. *)
Theorem presence_through_the_pipeline fs fs1 fs2 sample_size :
  build fs = (Return OUT_PATH, fs1) →
  compute_hits SOURCE_PARQUET HITS_PARQUET sample_size fs1
    = (Return HITS_PARQUET, fs2) →
  ∃ out,
    fs2 !! HITS_PARQUET = Some (hits_parquet out)
    ∧ ∀ o, o ∈ out →
        (is_Some (Out.registration_id o) → is_Some (Out.exam_year o) →
         ∀ s, Out.presence o s = Some 1)
        ∧ (Out.registration_id o = None ∨ Out.exam_year o = None →
           ∀ s, Out.presence o s = None).
Proof.
  unfold build. intros Hbuild.
  destruct (fs !! CSV_PATH) as [[csv| |]|] eqn:Hcsv; try done.
  destruct (_transform csv) as [df|e] eqn:Hdf; [|done].
  injection Hbuild as <-.
  rewrite (compute_hits_run _ SOURCE_PARQUET HITS_PARQUET sample_size
             (filter (λ r, present_in_all r) df))
    by apply lookup_insert_eq.
  intros [= <-]. eexists. split; [apply lookup_insert_eq|].
  intros o Ho. split.
  - intros Hid Hy s.
    destruct (passthrough_when_keyed _ _ o Ho Hid Hy)
      as (r & Hr & (_ & _ & _ & _ & Hp & _)).
    rewrite Hp. unfold LIMIT in Hr.
    assert (r ∈ filter (λ r, present_in_all r) df) as [Hall _]%list_elem_of_filter.
    { destruct sample_size as [n|]; [|done].
      apply (subseteq_take n). exact Hr. }
    by apply present_in_all_spec.
  - intros Hnull s.
    by destruct (passthrough_when_null _ _ o Ho Hnull) as (_ & _ & _ & _ & Hp & _).
Qed.

Lemma presence_through_the_pipeline_witness :
  ∃ out, (compute_hits SOURCE_PARQUET HITS_PARQUET None (build raw_fs).2).2
           !! HITS_PARQUET = Some (hits_parquet out)
         ∧ length out = 1%nat
         ∧ ∀ o, o ∈ out → ∀ s, Out.presence o s = Some 1.
Proof.
  assert ((build raw_fs).1 = Return OUT_PATH) as H1 by (by vm_compute).
  destruct (build raw_fs) as [res fs1] eqn:Hb. simpl in *. subst res.
  assert ((compute_hits SOURCE_PARQUET HITS_PARQUET None fs1).1
          = Return HITS_PARQUET) as H2.
  { assert ((compute_hits SOURCE_PARQUET HITS_PARQUET None (build raw_fs).2).1
            = Return HITS_PARQUET) as H by (by vm_compute).
    by rewrite Hb in H. }
  destruct (compute_hits SOURCE_PARQUET HITS_PARQUET None fs1)
    as [res fs2] eqn:Hc. simpl in *. subst res.
  destruct (presence_through_the_pipeline raw_fs fs1 fs2 None Hb Hc)
    as (out & Hout & Hpres).
  exists out. split; [exact Hout|].
  assert (match (compute_hits SOURCE_PARQUET HITS_PARQUET None
                   (build raw_fs).2).2 !! HITS_PARQUET with
          | Some (hits_parquet out) =>
              Some (length out,
                    bool_decide (Forall (λ o, is_Some (Out.registration_id o)
                                   ∧ is_Some (Out.exam_year o)) out))
          | _ => None
          end = Some (1%nat, true)) as Hcheck by (by vm_compute).
  rewrite Hb in Hcheck. simpl in Hcheck. rewrite Hc in Hcheck.
  simpl in Hcheck. rewrite Hout in Hcheck. injection Hcheck as Hlen Hall.
  split; [exact Hlen|]. intros o Ho.
  apply bool_decide_eq_true_1 in Hall. rewrite Forall_forall in Hall.
  destruct (Hall o Ho) as [Hid Hy]. by apply (Hpres o Ho).
Defined.
